(** * tau-bench airline workflow: the cancel_reservation tool and the
      FastWorkflow benchmark adapter

    A shallow embedding of
      - [examples/airline_workflow/tools/cancel_reservation.py]
        ([CancelReservation.invoke]) and
      - [tau_bench/agents/fastworkflow_adapter.py]
        ([_collect_diffs], [_simulate_gt_data], the two drain helpers and
        [FastWorkflowAgentAdapter.solve]),
    followed by the properties proved about them.

    Modelling conventions.
      - The dataset is what [json.load] produces: a tree of dictionaries with
        string keys, lists, strings, integers, booleans and [None], without
        sharing between sub-objects.  An in-place mutation of a sub-object is
        therefore written as an update along the access path.  Python floats
        are outside the model.
      - A Python [str] is a [string] read as a sequence of code points below
        256.
      - A dictionary is an association list in insertion order; lookup takes
        the first binding and assignment overwrites it in place, or appends a
        new binding at the end.
      - A call that can raise returns an [outcome]; code that mutates the
        dataset returns the dataset after the call as well, also when it
        raises. *)

From Stdlib Require Import ZArith String Ascii List Bool Lia DecimalString.
From Stdlib Require Import Permutation Sorted PrimFloat.
From Stdlib Require OrderedTypeEx.
Import ListNotations.

Set Warnings "-register-all".

Local Open Scope string_scope.
Local Open Scope list_scope.

(* ================================================================== *)
(** * Part I: the embedding                                            *)
(* ================================================================== *)

(** ** Python values and the built-in operations the code relies on *)

Module Py.

Inductive value : Type :=
| VNone
| VBool (b : bool)
| VInt (n : Z)
| VStr (s : string)
| VList (l : list value)
| VDict (d : list (string * value)).

(** Built-in exception classes raised by the operations below. *)
Inductive exn : Type :=
| KeyError (key : string)
| TypeError
| AttributeError.

Inductive outcome (E A : Type) : Type :=
| Returned (a : A)
| Raised (e : E).
Arguments Returned {E A} a.
Arguments Raised {E A} e.

Definition bind {E A B} (m : outcome E A) (k : A -> outcome E B) : outcome E B :=
  match m with
  | Returned a => k a
  | Raised e => Raised e
  end.

Notation "x <- m ;; k" := (bind m (fun x => k))
  (at level 61, m at next level, right associativity).

Fixpoint mapM {E A B} (f : A -> outcome E B) (l : list A) : outcome E (list B) :=
  match l with
  | [] => Returned []
  | a :: l' => b <- f a ;; bs <- mapM f l' ;; Returned (b :: bs)
  end.

(** *** Dictionaries *)

Definition dict := list (string * value).

Fixpoint lookup {A} (d : list (string * A)) (k : string) : option A :=
  match d with
  | [] => None
  | (k', v) :: d' => if String.eqb k k' then Some v else lookup d' k
  end.

(** [d[k] = v] *)
Fixpoint dict_set (d : dict) (k : string) (v : value) : dict :=
  match d with
  | [] => [(k, v)]
  | (k', v') :: d' =>
      if String.eqb k k' then (k', v) :: d' else (k', v') :: dict_set d' k v
  end.

Definition keys (d : dict) : list string := map fst d.

Definition has_key (d : dict) (k : string) : bool :=
  match lookup d k with Some _ => true | None => false end.

(** *** Subscription, membership, iteration *)

(** [v[k]] for a string [k]. *)
Definition getitem (v : value) (k : string) : outcome exn value :=
  match v with
  | VDict d =>
      match lookup d k with
      | Some x => Returned x
      | None => Raised (KeyError k)
      end
  | _ => Raised TypeError
  end.

(** [v[k] = x] on an object that is a dictionary. *)
Definition setitem (v : value) (k : string) (x : value) : value :=
  match v with
  | VDict d => VDict (dict_set d k x)
  | _ => v
  end.

Fixpoint is_prefix (p s : string) : bool :=
  match p, s with
  | EmptyString, _ => true
  | String a p', String b s' => Ascii.eqb a b && is_prefix p' s'
  | String _ _, EmptyString => false
  end.

Fixpoint is_substring (p s : string) : bool :=
  is_prefix p s ||
  match s with
  | EmptyString => false
  | String _ s' => is_substring p s'
  end.

Definition is_str (k : string) (v : value) : bool :=
  match v with
  | VStr s => String.eqb k s
  | _ => false
  end.

(** [k in v] for a string [k]: key membership in a dictionary, element
    membership in a list, substring test on a string. *)
Definition contains (v : value) (k : string) : outcome exn bool :=
  match v with
  | VDict d => Returned (has_key d k)
  | VList l => Returned (existsb (is_str k) l)
  | VStr s => Returned (is_substring k s)
  | _ => Raised TypeError
  end.

Definition chars (s : string) : list value :=
  map (fun c => VStr (String c EmptyString)) (list_ascii_of_string s).

(** The elements a [for] loop over [v] visits. *)
Definition iterate (v : value) : outcome exn (list value) :=
  match v with
  | VList l => Returned l
  | VDict d => Returned (map VStr (keys d))
  | VStr s => Returned (chars s)
  | _ => Raised TypeError
  end.

(** Unary minus. *)
Definition neg (v : value) : outcome exn value :=
  match v with
  | VInt n => Returned (VInt (- n))
  | VBool b => Returned (VInt (- Z.b2z b))
  | _ => Raised TypeError
  end.

(** [v.extend(xs)]: only lists have the method. *)
Definition extend (v : value) (xs : list value) : outcome exn value :=
  match v with
  | VList l => Returned (VList (l ++ xs))
  | _ => Raised AttributeError
  end.

(** *** Printing *)

Definition str_of_Z (n : Z) : string := NilZero.string_of_int (Z.to_int n).
Definition str_of_nat (n : nat) : string := NilZero.string_of_uint (Nat.to_uint n).

Definition hex_digit (n : nat) : ascii :=
  match n with
  | 0 => "0" | 1 => "1" | 2 => "2" | 3 => "3" | 4 => "4"
  | 5 => "5" | 6 => "6" | 7 => "7" | 8 => "8" | 9 => "9"
  | 10 => "a" | 11 => "b" | 12 => "c" | 13 => "d" | 14 => "e"
  | _ => "f"
  end%char.

Definition hex2 (c : ascii) : string :=
  let n := nat_of_ascii c in
  String (hex_digit (n / 16)) (String (hex_digit (n mod 16)) EmptyString).

Definition printable_ascii (c : ascii) : bool :=
  let n := nat_of_ascii c in (32 <=? n)%nat && (n <=? 126)%nat.

Definition dquote : string := String (ascii_of_nat 34) EmptyString.

(** [json.dumps] with its default arguments ([ensure_ascii=True], separators
    [", "] and [": "]). *)
Definition json_escape_char (c : ascii) : string :=
  let n := nat_of_ascii c in
  if (n =? 34)%nat then ("\" ++ dquote)%string
  else if (n =? 92)%nat then "\\"
  else if (n =? 10)%nat then "\n"
  else if (n =? 13)%nat then "\r"
  else if (n =? 9)%nat then "\t"
  else if (n =? 8)%nat then "\b"
  else if (n =? 12)%nat then "\f"
  else if printable_ascii c then String c EmptyString
  else ("\u00" ++ hex2 c)%string.

Definition json_string (s : string) : string :=
  (dquote ++ String.concat EmptyString (map json_escape_char (list_ascii_of_string s))
          ++ dquote)%string.

Fixpoint json_dumps (v : value) : string :=
  match v with
  | VNone => "null"
  | VBool true => "true"
  | VBool false => "false"
  | VInt n => str_of_Z n
  | VStr s => json_string s
  | VList l => ("[" ++ String.concat ", " (map json_dumps l) ++ "]")%string
  | VDict d =>
      ("{" ++ String.concat ", "
                (map (fun kv => json_string (fst kv) ++ ": " ++ json_dumps (snd kv)) d)
           ++ "}")%string
  end.

(** [repr] and [str].  A string is quoted with single quotes unless it holds
    a single quote and no double quote. *)
Definition has_char (n : nat) (s : string) : bool :=
  existsb (fun c => (nat_of_ascii c =? n)%nat) (list_ascii_of_string s).

Definition repr_quote (s : string) : ascii :=
  if has_char 39 s && negb (has_char 34 s) then ascii_of_nat 34 else ascii_of_nat 39.

Definition repr_char (q c : ascii) : string :=
  let n := nat_of_ascii c in
  if Ascii.eqb c q || (n =? 92)%nat then String (ascii_of_nat 92) (String c EmptyString)
  else if (n =? 9)%nat then "\t"
  else if (n =? 10)%nat then "\n"
  else if (n =? 13)%nat then "\r"
  else if (n <? 32)%nat || (n =? 127)%nat then ("\x" ++ hex2 c)%string
  else if (n <? 127)%nat then String c EmptyString
  else if (161 <=? n)%nat && negb (n =? 173)%nat then String c EmptyString
  else ("\x" ++ hex2 c)%string.

Definition repr_string (s : string) : string :=
  let q := repr_quote s in
  String q (String.concat EmptyString (map (repr_char q) (list_ascii_of_string s))
            ++ String q EmptyString)%string.

Fixpoint py_repr (v : value) : string :=
  match v with
  | VNone => "None"
  | VBool true => "True"
  | VBool false => "False"
  | VInt n => str_of_Z n
  | VStr s => repr_string s
  | VList l => ("[" ++ String.concat ", " (map py_repr l) ++ "]")%string
  | VDict d =>
      ("{" ++ String.concat ", "
                (map (fun kv => repr_string (fst kv) ++ ": " ++ py_repr (snd kv)) d)
           ++ "}")%string
  end.

(** [s.strip()]: the white space among the code points below 256. *)
Definition is_space (c : ascii) : bool :=
  let n := nat_of_ascii c in
  ((9 <=? n) && (n <=? 13) || (28 <=? n) && (n <=? 32) || (n =? 133) || (n =? 160))%nat.

Fixpoint lstrip (s : string) : string :=
  match s with
  | String c s' => if is_space c then lstrip s' else s
  | EmptyString => EmptyString
  end.

Definition reverse (s : string) : string :=
  string_of_list_ascii (rev (list_ascii_of_string s)).

Definition strip (s : string) : string := reverse (lstrip (reverse (lstrip s))).

Definition newline : string := String (ascii_of_nat 10) EmptyString.

(** Truth value of a string. *)
Definition nonempty (s : string) : bool :=
  match s with
  | EmptyString => false
  | String _ _ => true
  end.

Definition py_str (v : value) : string :=
  match v with
  | VStr s => s
  | _ => py_repr v
  end.

End Py.

(** ** tools/cancel_reservation.py *)

Module CancelReservation.
Import Py.

(** One element of the [refunds] comprehension. *)
Definition refund (payment : value) : outcome exn value :=
  pid <- getitem payment "payment_id" ;;
  amt <- getitem payment "amount" ;;
  namt <- neg amt ;;
  Returned (VDict [("payment_id", pid); ("amount", namt)]).

(** [reservation["payment_history"]] after
    [reservation["payment_history"].extend(refunds)]. *)
Definition extended_history (reservation : value) : outcome exn value :=
  history <- getitem reservation "payment_history" ;;
  payments <- iterate history ;;
  refunds <- mapM refund payments ;;
  extend history refunds.

(** [CancelReservation.invoke(data, reservation_id)]: the call's outcome and
    the dataset after the call. *)
Definition invoke (data : value) (reservation_id : string)
  : outcome exn string * value :=
  match getitem data "reservations" with
  | Raised e => (Raised e, data)
  | Returned reservations =>
      match contains reservations reservation_id with
      | Raised e => (Raised e, data)
      | Returned false => (Returned "Error: reservation not found", data)
      | Returned true =>
          match getitem reservations reservation_id with
          | Raised e => (Raised e, data)
          | Returned reservation =>
              match extended_history reservation with
              | Raised e => (Raised e, data)
              | Returned history =>
                  let reservation' :=
                    setitem (setitem reservation "payment_history" history)
                            "status" (VStr "cancelled") in
                  (Returned (json_dumps reservation'),
                   setitem data "reservations"
                           (setitem reservations reservation_id reservation'))
              end
          end
      end
  end.

End CancelReservation.

(** ** agents/fastworkflow_adapter.py: the diff of two datasets *)

Module Diff.
Import Py.

(** A diff record: [{"path", "agent", "gt"}] or
    [{"path", "agent_len", "gt_len"}]. *)
Inductive diff : Type :=
| ValueDiff (path agent gt : string)
| LengthDiff (path : string) (agent_len gt_len : nat).

Definition diff_path (d : diff) : string :=
  match d with
  | ValueDiff p _ _ => p
  | LengthDiff p _ _ => p
  end.

(** [type(agent) != type(gt)], negated. *)
Definition same_type (a b : value) : bool :=
  match a, b with
  | VNone, VNone | VBool _, VBool _ | VInt _, VInt _ | VStr _, VStr _
  | VList _, VList _ | VDict _, VDict _ => true
  | _, _ => false
  end.

(** [agent == gt] for two values of one type that is neither [dict] nor
    [list]. *)
Definition scalar_eqb (a b : value) : bool :=
  match a, b with
  | VNone, VNone => true
  | VBool x, VBool y => Bool.eqb x y
  | VInt x, VInt y => Z.eqb x y
  | VStr x, VStr y => String.eqb x y
  | _, _ => false
  end.

(** [len(diffs) >= limit] *)
Definition full (diffs : list diff) (limit : Z) : bool :=
  (limit <=? Z.of_nat (length diffs))%Z.

(** [f"{path}.{k}" if path else str(k)] *)
Definition key_path (path k : string) : string :=
  match path with
  | EmptyString => k
  | _ => (path ++ "." ++ k)%string
  end.

(** [f"{path}[{i}]" if path else f"[{i}]"] *)
Definition index_path (path : string) (i : nat) : string :=
  match path with
  | EmptyString => ("[" ++ str_of_nat i ++ "]")%string
  | _ => (path ++ "[" ++ str_of_nat i ++ "]")%string
  end.

(** [sorted(set(agent.keys()) | set(gt.keys()))] *)
Fixpoint insert_sorted (k : string) (l : list string) : list string :=
  match l with
  | [] => [k]
  | x :: l' => if String.leb k x then k :: l else x :: insert_sorted k l'
  end.

Definition sorted (l : list string) : list string := fold_right insert_sorted [] l.

Definition union_keys (a g : dict) : list string :=
  nodup string_dec (keys a ++ keys g).

Definition comparison : Type := value -> string -> list diff -> Z -> list diff.

(** Every key of [agent] bound to [agent[k]] and to the comparison of
    [agent[k]] with a ground-truth value. *)
Definition bind_comparisons (compare : value -> comparison) (agent : dict)
  : list (string * (value * comparison)) :=
  map (fun kv => (fst kv, (snd kv, compare (snd kv)))) agent.

(** The [for k in sorted(keys)] loop over the bindings [sub] of [agent].  A
    key in neither dictionary cannot come out of [union_keys]; the loop
    passes over it. *)
Definition keys_loop (sub : list (string * (value * comparison))) (g : dict)
    (path : string) (limit : Z) : list string -> list diff -> list diff :=
  fix loop (ks : list string) (diffs : list diff) {struct ks} : list diff :=
    match ks with
    | [] => diffs
    | k :: ks' =>
        if full diffs limit then diffs
        else
          let np := key_path path k in
          match lookup sub k, lookup g k with
          | None, Some gv =>
              loop ks' (diffs ++ [ValueDiff np "<missing>" (py_str gv)])
          | Some (av, _), None =>
              loop ks' (diffs ++ [ValueDiff np (py_str av) "<missing>"])
          | Some (_, compare), Some gv => loop ks' (compare gv np diffs limit)
          | None, None => loop ks' diffs
          end
    end.

(** The [for i, (av, gv) in enumerate(zip(agent, gt))] loop, from index [i]. *)
Definition zip_loop (compare : value -> comparison) (path : string) (limit : Z)
  : list value -> list value -> nat -> list diff -> list diff :=
  fix loop (a g : list value) (i : nat) (diffs : list diff) {struct a} : list diff :=
    match a, g with
    | av :: a', gv :: g' =>
        if full diffs limit then diffs
        else loop a' g' (S i) (compare av gv (index_path path i) diffs limit)
    | _, _ => diffs
    end.

(** [_collect_diffs(agent, gt, path, diffs, limit)]: the list [diffs] after
    the call. *)
Fixpoint _collect_diffs (agent gt : value) (path : string) (diffs : list diff)
    (limit : Z) {struct agent} : list diff :=
  if full diffs limit then diffs
  else if negb (same_type agent gt) then
    diffs ++ [ValueDiff path (py_str agent) (py_str gt)]
  else
    match agent, gt with
    | VDict a, VDict g =>
        keys_loop (bind_comparisons _collect_diffs a)
                  g path limit (sorted (union_keys a g)) diffs
    | VList a, VList g =>
        let diffs :=
          if (length a =? length g)%nat then diffs
          else diffs ++ [LengthDiff path (length a) (length g)] in
        zip_loop _collect_diffs path limit a g 0 diffs
    | _, _ =>
        if scalar_eqb agent gt then diffs
        else diffs ++ [ValueDiff path (py_str agent) (py_str gt)]
    end.

End Diff.

(** ** agents/fastworkflow_adapter.py: the adapter and its collaborators *)

Module Adapter.
Import Py Diff.

(** An exception raised by an external call, an instance of [Exception]: its
    class name and its [str]. *)
Record exc : Type := Exc { exc_class : string; exc_str : string }.

(** [tau_bench.types.Action] *)
Record Action : Type := TauAction { action_name : string; action_kwargs : dict }.

(** A tool class as the ground-truth replay uses it:
    [tool_cls.invoke(data=data, **kwargs)] gives an outcome and leaves the
    dataset in some state, also when it raises. *)
Record Tool : Type := {
  tool_exn : Type;
  tool_invoke : value -> dict -> outcome tool_exn string * value
}.

Inductive Direction : Type := AGENT_TO_WORKFLOW | WORKFLOW_TO_AGENT.

(** The [parameters] attribute of a trace event: [None], a dictionary, or
    another object, given by what [params.model_dump()], [params.dict()] and
    [dict(params)] return ([None] when the call raises). *)
Inductive Params : Type :=
| ParamsNone
| ParamsDict (d : dict)
| ParamsObject (model_dump as_dict dict_of : option dict).

(** A command trace event, through the attributes the adapter reads
    ([getattr] with default [None]). *)
Record TraceEvent : Type := {
  direction : option Direction;
  command_name : value;
  parameters : Params;
  response_text : value;
  success : value
}.

(** An item of the command output queue: an object whose [command_responses]
    is a list (given by the [response] attribute of each element, [None] when
    absent), a string, or anything else. *)
Inductive CommandOutput : Type :=
| ResponsesOutput (responses : list value)
| StrOutput (s : string)
| OtherOutput.

(** What [env.step] returns, through the attributes the adapter reads. *)
Record StepResult : Type := { observation : value; step_done : bool }.

(** What [env.calculate_reward] returns: the reward and, when the object has
    the method, its [model_dump()]. *)
Record RewardResult : Type := { rr_reward : float; rr_model_dump : option value }.

(** [tau_bench.types.SolveResult]; a message is a role and a content. *)
Record SolveResult : Type := {
  reward : float;
  messages : list (string * string);
  info : dict
}.

(** The adapter object, through the attributes [solve] reads. *)
Record FastWorkflowAgentAdapter : Type := { wiki : string; workflow_path : string }.

(** *** Calls into the world outside the adapter *)

(** A computation on the outside world [W] that returns or raises. *)
Definition M (W A : Type) : Type := W -> outcome exc A * W.

Definition ret {W A} (a : A) : M W A := fun w => (Returned a, w).

Definition raise {W A} (e : exc) : M W A := fun w => (Raised e, w).

Definition bindM {W A B} (m : M W A) (k : A -> M W B) : M W B :=
  fun w =>
    match m w with
    | (Returned a, w') => k a w'
    | (Raised e, w') => (Raised e, w')
    end.

Notation "x <~ m ;; k" := (bindM m (fun x => k))
  (at level 61, m at next level, right associativity).
Notation "' p <~ m ;; k" := (bindM m (fun x => match x with p => k end))
  (at level 61, p pattern, m at next level, right associativity).

(** [with contextlib.suppress(Exception): m] *)
Definition suppress {W} (m : M W unit) : M W unit :=
  fun w => (Returned tt, snd (m w)).

(** [try: body  except Exception as e: handler(e)] *)
Definition try_except {W A} (body : M W A) (handler : exc -> M W A) : M W A :=
  fun w =>
    match body w with
    | (Returned a, w') => (Returned a, w')
    | (Raised e, w') => handler e w'
    end.

(** Modelled from the spec: the external collaborators, which are not among
    the reviewed sources: the workflow framework (initialisation, chat
    session, its command trace queue, command output queue and user message
    queue), the benchmark environment (tasks, [reset], [step], dataset,
    tools, and its own scoring function [calculate_reward], to which the
    numeric reward is delegated), [dotenv_values] and [time.sleep].  Each call
    acts on the outside world [W] and may raise.  A queue read returns [None]
    for [queue.Empty]. *)
Class Externals (W : Type) : Type := {
  dotenv_values : string -> M W dict;
  fastworkflow_import : M W unit;
  fastworkflow_init : dict -> M W unit;
  clear_workflow_stack : M W unit;
  new_chat_session : bool -> M W unit;
  start_workflow : string -> string -> M W unit;
  has_CommandTraceEventDirection : bool;
  command_trace_get_nowait : M W (option TraceEvent);
  command_output_get_nowait : M W (option CommandOutput);
  user_message_put : string -> M W unit;
  sleep_ms : nat -> M W unit;
  RESPOND_ACTION_NAME : string;
  RESPOND_ACTION_FIELD_NAME : string;
  env_task_instruction : option Z -> M W string;
  env_reset : option Z -> M W unit;
  env_step : Action -> M W StepResult;
  env_data : W -> value;
  env_data_load_func : M W value;
  env_task_actions : W -> list Action;
  env_terminate_tools : W -> list string;
  env_tools_map : W -> string -> option Tool;
  env_calculate_reward : M W RewardResult
}.

Section WithExternals.
Context {W : Type} {X : Externals W}.

(** [_json_deepcopy(obj)]: on a JSON tree the round trip through
    [json.dumps] and [json.loads] gives an equal, unshared tree. *)
Definition _json_deepcopy (obj : value) : value := obj.

(** One ground-truth action of the replay loop of [_simulate_gt_data]. *)
Definition replay_action (w : W) (data : value) (action : Action) : value :=
  if existsb (String.eqb (action_name action)) (env_terminate_tools w) then data
  else
    match env_tools_map w (action_name action) with
    | None => data
    | Some tool_cls => snd (tool_invoke tool_cls data (action_kwargs action))
    end.

Fixpoint replay (w : W) (actions : list Action) (data : value) : value :=
  match actions with
  | [] => data
  | action :: rest => replay w rest (replay_action w data action)
  end.

Definition _simulate_gt_data : M W value :=
  data <~ env_data_load_func ;;
  fun w => (Returned (replay w (env_task_actions w) data), w).

Definition _to_plain_kwargs (params : Params) : dict :=
  match params with
  | ParamsNone => []
  | ParamsDict d => d
  | ParamsObject (Some d) _ _ => d
  | ParamsObject None (Some d) _ => d
  | ParamsObject None None (Some d) => d
  | ParamsObject None None None => []
  end.

Definition is_agent_to_workflow (evt : TraceEvent) : bool :=
  if has_CommandTraceEventDirection then
    match direction evt with
    | Some AGENT_TO_WORKFLOW => true
    | _ => false
    end
  else false.

(** [isinstance(v, str) and len(v) > 0] *)
Definition nonempty_str (v : value) : option string :=
  match v with
  | VStr s => if nonempty s then Some s else None
  | _ => None
  end.

(** The [while processed < max_drain] loop of [_drain_command_trace], with
    [remaining = max_drain - processed]. *)
Fixpoint drain_trace_loop (remaining processed : nat) (aggregated_response_texts : list string)
    (actions_executed : list value) : M W (nat * list string * list value) :=
  match remaining with
  | O => ret (processed, aggregated_response_texts, actions_executed)
  | S remaining' =>
      got <~ command_trace_get_nowait ;;
      match got with
      | None => ret (processed, aggregated_response_texts, actions_executed)
      | Some evt =>
          let processed := S processed in
          if is_agent_to_workflow evt then
            drain_trace_loop remaining' processed aggregated_response_texts actions_executed
          else
            let params := _to_plain_kwargs (parameters evt) in
            let texts :=
              match nonempty_str (response_text evt) with
              | Some txt => aggregated_response_texts ++ [txt]
              | None => aggregated_response_texts
              end in
            match nonempty_str (command_name evt) with
            | Some cmd_name =>
                let actions :=
                  actions_executed ++
                    [VDict [("name", VStr cmd_name);
                            ("kwargs", VDict params);
                            ("response_text", response_text evt);
                            ("success", success evt)]] in
                _ <~ env_step (TauAction cmd_name params) ;;
                drain_trace_loop remaining' processed texts actions
            | None => drain_trace_loop remaining' processed texts actions_executed
            end
      end
  end.

(** [_drain_command_trace]: the number of items processed and the two lists
    after the call. *)
Definition _drain_command_trace (max_drain : nat) (aggregated_response_texts : list string)
    (actions_executed : list value) : M W (nat * list string * list value) :=
  drain_trace_loop max_drain 0 aggregated_response_texts actions_executed.

Definition stripped (txt : value) : list string :=
  match txt with
  | VStr s => if nonempty (strip s) then [strip s] else []
  | _ => []
  end.

Definition agent_texts_of (out : CommandOutput) : list string :=
  match out with
  | ResponsesOutput responses => flat_map stripped responses
  | StrOutput s => stripped (VStr s)
  | OtherOutput => []
  end.

(** The [while processed < max_drain] loop of
    [_drain_agent_outputs_and_respond]. *)
Fixpoint drain_outputs_loop (remaining processed : nat) (aggregated_response_texts : list string)
  : M W (nat * bool * list string) :=
  match remaining with
  | O => ret (processed, false, aggregated_response_texts)
  | S remaining' =>
      got <~ command_output_get_nowait ;;
      match got with
      | None => ret (processed, false, aggregated_response_texts)
      | Some out =>
          let processed := S processed in
          match agent_texts_of out with
          | [] => drain_outputs_loop remaining' processed aggregated_response_texts
          | agent_texts =>
              let agent_text := String.concat newline agent_texts in
              let texts := aggregated_response_texts ++ [agent_text] in
              res <~ env_step (TauAction RESPOND_ACTION_NAME
                                 [(RESPOND_ACTION_FIELD_NAME, VStr agent_text)]) ;;
              texts <~ match nonempty_str (observation res) with
                       | Some user_reply =>
                           _ <~ user_message_put user_reply ;;
                           ret (texts ++ [user_reply])
                       | None => ret texts
                       end ;;
              if step_done res then ret (processed, true, texts)
              else drain_outputs_loop remaining' processed texts
          end
      end
  end.

(** [_drain_agent_outputs_and_respond]: [(processed, done)] and the list of
    texts after the call. *)
Definition _drain_agent_outputs_and_respond (max_drain : nat)
    (aggregated_response_texts : list string) : M W (nat * bool * list string) :=
  drain_outputs_loop max_drain 0 aggregated_response_texts.

(** The local variables of [solve] that the interaction loop updates. *)
Record loop_state : Type := {
  actions_executed : list value;
  aggregated_response_texts : list string;
  steps_taken : nat;
  done : bool;
  idle_cycles : nat
}.

Definition idle_limit : nat := 150.

(** The [for _ in range(max_num_steps)] loop of [solve], with [budget]
    iterations left. *)
Fixpoint interaction_loop (budget : nat) (st : loop_state) : M W loop_state :=
  match budget with
  | O => ret st
  | S budget' =>
      '(processed_trace, texts, actions) <~
         _drain_command_trace 200 (aggregated_response_texts st) (actions_executed st) ;;
      '(processed_out, out_done, texts) <~ _drain_agent_outputs_and_respond 200 texts ;;
      let progressed := processed_trace + processed_out in
      let st' := {|
        actions_executed := actions;
        aggregated_response_texts := texts;
        steps_taken := steps_taken st + progressed;
        done := if out_done then true else done st;
        idle_cycles := if (progressed =? 0)%nat then S (idle_cycles st) else 0
      |} in
      if done st' || (idle_limit <=? idle_cycles st')%nat then ret st'
      else _ <~ sleep_ms 150 ;; interaction_loop budget' st'
  end.

Definition initial_loop_state : loop_state := {|
  actions_executed := [];
  aggregated_response_texts := [];
  steps_taken := 0;
  done := false;
  idle_cycles := 0
|}.

Definition py_int_opt (i : option Z) : value :=
  match i with
  | Some n => VInt n
  | None => VNone
  end.

(** The [try] block of [solve], in three parts.  First, up to the start of
    the workflow: the task instruction. *)
Definition solve_setup (self : FastWorkflowAgentAdapter) (task_index : option Z)
  : M W string :=
  vars1 <~ dotenv_values "examples/fastworkflow.env" ;;
  vars2 <~ dotenv_values "examples/fastworkflow.passwords.env" ;;
  _ <~ fastworkflow_import ;;
  _ <~ fastworkflow_init (fold_left (fun d kv => dict_set d (fst kv) (snd kv)) vars2 vars1) ;;
  _ <~ suppress clear_workflow_stack ;;
  _ <~ new_chat_session true ;;
  initial_observation <~ env_task_instruction task_index ;;
  _ <~ env_reset task_index ;;
  _ <~ start_workflow (workflow_path self) initial_observation ;;
  ret initial_observation.

(** Last, after the interaction loop: the reward and the result.  The capped
    diff list and the two hashes are computed and not used afterwards. *)
Definition solve_result (self : FastWorkflowAgentAdapter) (task_index : option Z)
    (initial_observation : string) (st : loop_state) : M W SolveResult :=
  agent_final_data <~ (fun w => (Returned (_json_deepcopy (env_data w)), w)) ;;
  gt_data_sim <~ _simulate_gt_data ;;
  let diffs := _collect_diffs agent_final_data gt_data_sim EmptyString [] 50 in
  reward_res <~ env_calculate_reward ;;
  let combined_response :=
    strip (String.concat newline (aggregated_response_texts st)) in
  let messages :=
    [("system", wiki self); ("user", initial_observation)] ++
    (if nonempty combined_response then [("assistant", combined_response)] else []) in
  ret {|
    reward := rr_reward reward_res;
    messages := messages;
    info := [("task_index", py_int_opt task_index);
             ("steps", VInt (Z.of_nat (steps_taken st)));
             ("executed_actions", VList (actions_executed st));
             ("reward_info",
              match rr_model_dump reward_res with
              | Some dump => dump
              | None => VDict []
              end)]
  |}.

Definition solve_try (self : FastWorkflowAgentAdapter) (task_index : option Z)
    (max_num_steps : Z) : M W SolveResult :=
  initial_observation <~ solve_setup self task_index ;;
  st <~ interaction_loop (Z.to_nat max_num_steps) initial_loop_state ;;
  solve_result self task_index initial_observation st.

(** The [except Exception as e] block of [solve]. *)
Definition solve_except (self : FastWorkflowAgentAdapter) (e : exc) : SolveResult := {|
  reward := 0%float;
  messages := [("system", wiki self)];
  info := [("error", VStr (exc_str e))]
|}.

(** [FastWorkflowAgentAdapter.solve(env, task_index, max_num_steps)] *)
Definition solve (self : FastWorkflowAgentAdapter) (task_index : option Z)
    (max_num_steps : Z) : M W SolveResult :=
  try_except (solve_try self task_index max_num_steps)
             (fun e => ret (solve_except self e)).

End WithExternals.

End Adapter.

(* ================================================================== *)
(** * Part II: vocabulary of the properties, and example data          *)
(* ================================================================== *)

Import Py.

(** ** Reading a dataset *)

(** [v[k]] when [v] is a dictionary that has the key. *)
Definition field (v : value) (k : string) : option value :=
  match v with
  | VDict d => lookup d k
  | _ => None
  end.

(** [data["reservations"][rid]] *)
Definition reservation_at (data : value) (rid : string) : option value :=
  match field data "reservations" with
  | Some reservations => field reservations rid
  | None => None
  end.

Definition payment_history (reservation : value) : option (list value) :=
  match field reservation "payment_history" with
  | Some (VList l) => Some l
  | _ => None
  end.

Definition amount (payment : value) : option Z :=
  match field payment "amount" with
  | Some (VInt n) => Some n
  | _ => None
  end.



(** ** Example data *)

Definition example_reservation : value :=
  VDict [("reservation_id", VStr "4WQ150");
         ("user_id", VStr "chen_jackson_3290");
         ("payment_history",
          VList [VDict [("payment_id", VStr "credit_card_1"); ("amount", VInt 100)]]);
         ("status", VStr "active")].

Definition example_data : value :=
  VDict [("flights", VDict []);
         ("reservations", VDict [("4WQ150", example_reservation);
                                 ("VAAOXJ", VDict [("payment_history", VList [])])]);
         ("users", VDict [("chen_jackson_3290", VDict [])])].

(** [q] refunds [p]: same [payment_id], opposite integer [amount]. *)
Definition refunds (p q : value) : Prop :=
  field q "payment_id" = field p "payment_id" /\
  exists n, amount p = Some n /\ amount q = Some (- n)%Z.

(** The reservation after a successful cancellation that appends [rs]. *)
Definition cancelled (reservation : value) (ph rs : list value) : value :=
  setitem (setitem reservation "payment_history" (VList (ph ++ rs)))
          "status" (VStr "cancelled").

(** The dataset with [reservation'] stored under [rid]. *)
Definition with_reservation (data : value) (rid : string) (reservation' : value) : value :=
  match field data "reservations" with
  | Some reservations =>
      setitem data "reservations" (setitem reservations rid reservation')
  | None => data
  end.

(** ** Diffs *)

Import Diff.

(** [out] is [diffs] with records appended, holds no more than
    [max(len(diffs), limit)] records, and every appended record has a path of
    at least [n] characters. *)
Definition appended (n : nat) (diffs : list diff) (limit : Z) (out : list diff) : Prop :=
  exists rest,
    out = diffs ++ rest /\
    (Z.of_nat (length out) <= Z.max (Z.of_nat (length diffs)) limit)%Z /\
    Forall (fun r => n <= String.length (diff_path r)) rest.

(** A comparison that only appends, within the cap, records below its path. *)
Definition appending (limit : Z) (compare : comparison) : Prop :=
  forall gt path diffs,
    appended (String.length path) diffs limit (compare gt path diffs limit).



(** One step from a container into it: a dictionary key or a list index. *)
Inductive segment : Type :=
| Key (k : string)
| Index (i : nat).

(** The path of the position reached from [path] by one step, as
    [_collect_diffs] writes it. *)
Definition extend_path (path : string) (seg : segment) : string :=
  match seg with
  | Key k => key_path path k
  | Index i => index_path path i
  end.






(** The path of element [i] of the list at [path]: the path, then the index
    in brackets. *)
Definition element_path (path : string) (i : nat) : string :=
  (path ++ "[" ++ str_of_nat i ++ "]")%string.

(** The index pairs of two lists: index [i] with element [i] of the one and
    element [i] of the other, as far as both have one. *)
Definition index_pairs (a g : list value) : list (nat * (value * value)) :=
  combine (seq 0 (length a)) (combine a g).

(** Comparing two lists pairwise: for every index pair in turn, the element
    of the one is compared with the element of the other under the path of
    that element. *)
Definition pairwise (path : string) (limit : Z) (a g : list value) (diffs : list diff)
  : list diff :=
  fold_left
    (fun acc p =>
       _collect_diffs (fst (snd p)) (snd (snd p)) (element_path path (fst p)) acc limit)
    (index_pairs a g) diffs.

(** Two values with the same structure: equal leaves, lists that have the
    same structure element by element, and dictionaries that bind the same
    keys to values of the same structure, in whatever order. *)
Inductive same_structure : value -> value -> Prop :=
| same_none : same_structure VNone VNone
| same_bool b : same_structure (VBool b) (VBool b)
| same_int n : same_structure (VInt n) (VInt n)
| same_str s : same_structure (VStr s) (VStr s)
| same_list l1 l2 :
    Forall2 same_structure l1 l2 ->
    same_structure (VList l1) (VList l2)
| same_dict d1 d2 :
    (forall k, lookup d1 k = None <-> lookup d2 k = None) ->
    (forall k a g, lookup d1 k = Some a -> lookup d2 k = Some g -> same_structure a g) ->
    same_structure (VDict d1) (VDict d2).


(** The example dataset with another status for reservation ["4WQ150"], its
    dictionaries filled in another order. *)
Definition example_data_cancelled_status : value :=
  VDict [("users", VDict [("chen_jackson_3290", VDict [])]);
         ("reservations",
          VDict [("VAAOXJ", VDict [("payment_history", VList [])]);
                 ("4WQ150",
                  VDict [("status", VStr "cancelled");
                         ("reservation_id", VStr "4WQ150");
                         ("payment_history",
                          VList [VDict [("amount", VInt 100);
                                        ("payment_id", VStr "credit_card_1")]]);
                         ("user_id", VStr "chen_jackson_3290")])]);
         ("flights", VDict [])].




(** ** The adapter *)

Import Adapter.

Section AdapterVocabulary.
Context {W : Type} {X : Externals W}.

(** [replayed w actions d d']: replaying [actions] in order on the dataset
    [d] leaves [d'].  A terminal action is skipped, an action without a tool
    is skipped, and the tool of any other action is invoked on the dataset,
    which goes on as the invocation left it, whether it returned or
    raised. *)
Inductive replayed (w : W) : list Action -> value -> value -> Prop :=
| replayed_end d : replayed w [] d d
| replayed_terminal a rest d d' :
    In (action_name a) (env_terminate_tools w) ->
    replayed w rest d d' ->
    replayed w (a :: rest) d d'
| replayed_no_tool a rest d d' :
    env_tools_map w (action_name a) = None ->
    replayed w rest d d' ->
    replayed w (a :: rest) d d'
| replayed_invoked a rest d d' tool_cls :
    ~ In (action_name a) (env_terminate_tools w) ->
    env_tools_map w (action_name a) = Some tool_cls ->
    replayed w rest (snd (tool_invoke tool_cls d (action_kwargs a))) d' ->
    replayed w (a :: rest) d d'.

(** One idle iteration's polling: the trace queue, then the output queue. *)
Definition idle_poll (w : W) : W :=
  snd (command_output_get_nowait (snd (command_trace_get_nowait w))).

(** [S n] idle iterations: [S n] pollings with the [n] sleeps between them. *)
Definition idle_rounds (n : nat) (w : W) : W :=
  Nat.iter n (fun w' => idle_poll (snd (sleep_ms 150 w'))) (idle_poll w).

(** Neither queue ever yields an item, and the sleep between two iterations
    returns. *)
Definition idle_queues : Prop :=
  (forall w, fst (command_trace_get_nowait w) = Returned None) /\
  (forall w, fst (command_output_get_nowait w) = Returned None) /\
  (forall w, fst (sleep_ms 150 w) = Returned tt).

(** The loop variables while nothing has happened, after [idle] idle
    iterations. *)
Definition idle_state (idle : nat) : loop_state := {|
  actions_executed := [];
  aggregated_response_texts := [];
  steps_taken := 0;
  done := false;
  idle_cycles := idle
|}.

End AdapterVocabulary.

(** ** An example world *)

(** A small world: the two queues with counters of the polls made on them,
    a counter of sleeps, the user simulator's mood, the environment's
    dataset, and the dataset its ground truth leads to. *)
Record toy_world : Type := {
  trace_queue : list TraceEvent;
  output_queue : list CommandOutput;
  trace_polls : nat;
  output_polls : nat;
  sleeps : nat;
  user_fails : bool;
  data : value;
  expected_data : value
}.

Fixpoint value_eqb (a b : value) : bool :=
  match a, b with
  | VNone, VNone => true
  | VBool x, VBool y => Bool.eqb x y
  | VInt x, VInt y => Z.eqb x y
  | VStr x, VStr y => String.eqb x y
  | VList l1, VList l2 =>
      (fix all (l1 l2 : list value) : bool :=
         match l1, l2 with
         | [], [] => true
         | x :: l1', y :: l2' => value_eqb x y && all l1' l2'
         | _, _ => false
         end) l1 l2
  | VDict d1, VDict d2 =>
      (fix all (d1 d2 : dict) : bool :=
         match d1, d2 with
         | [], [] => true
         | (k1, x) :: d1', (k2, y) :: d2' => String.eqb k1 k2 && value_eqb x y && all d1' d2'
         | _, _ => false
         end) d1 d2
  | _, _ => false
  end.

(** The cancellation tool under its name in the tools map, called with the
    keyword [reservation_id] bound to a string. *)
Definition cancel_reservation_tool : Tool := {|
  tool_exn := exn;
  tool_invoke data kwargs :=
    match kwargs with
    | [("reservation_id", VStr rid)] => CancelReservation.invoke data rid
    | _ => (Raised TypeError, data)
    end
|}.

(** A tool that marks the dataset and then raises. *)
Definition failing_tool : Tool := {|
  tool_exn := exn;
  tool_invoke data kwargs := (Raised (KeyError "user_id"), setitem data "touched" (VBool true))
|}.

Definition toy_tools (name : string) : option Tool :=
  if String.eqb name "cancel_reservation" then Some cancel_reservation_tool
  else if String.eqb name "send_certificate" then Some failing_tool
  else if String.eqb name "transfer_to_human_agents" then Some failing_tool
  else None.

Definition poll_trace (w : toy_world) : option TraceEvent * toy_world :=
  (hd_error (trace_queue w),
   {| trace_queue := tl (trace_queue w); output_queue := output_queue w;
      trace_polls := S (trace_polls w); output_polls := output_polls w;
      sleeps := sleeps w; user_fails := user_fails w;
      data := data w; expected_data := expected_data w |}).

Definition poll_output (w : toy_world) : option CommandOutput * toy_world :=
  (hd_error (output_queue w),
   {| trace_queue := trace_queue w; output_queue := tl (output_queue w);
      trace_polls := trace_polls w; output_polls := S (output_polls w);
      sleeps := sleeps w; user_fails := user_fails w;
      data := data w; expected_data := expected_data w |}).

Definition toy_sleep (w : toy_world) : toy_world :=
  {| trace_queue := trace_queue w; output_queue := output_queue w;
     trace_polls := trace_polls w; output_polls := output_polls w;
     sleeps := S (sleeps w); user_fails := user_fails w;
     data := data w; expected_data := expected_data w |}.

Definition toy_with_data (w : toy_world) (d : value) : toy_world :=
  {| trace_queue := trace_queue w; output_queue := output_queue w;
     trace_polls := trace_polls w; output_polls := output_polls w;
     sleeps := sleeps w; user_fails := user_fails w;
     data := d; expected_data := expected_data w |}.

(** The environment steps a tool call on its dataset, and hands a response
    to the user simulator, which answers, or fails when in that mood.  Its
    scoring gives 1.0 when its dataset is the expected one.  The queues yield
    their items when [yielding], and nothing otherwise. *)
Definition toy_step (a : Action) : M toy_world StepResult :=
  fun w =>
    if String.eqb (action_name a) "respond" then
      if user_fails w then (Raised (Exc "APIError" "rate limit exceeded"), w)
      else (Returned {| observation := VStr "###STOP###"; step_done := true |}, w)
    else
      match toy_tools (action_name a) with
      | Some tool =>
          (Returned {| observation := VStr "done"; step_done := false |},
           toy_with_data w (snd (tool_invoke tool (data w) (action_kwargs a))))
      | None =>
          (Returned {| observation := VStr "Unknown action"; step_done := false |}, w)
      end.

Definition toy_externals (yielding : bool) (task_actions : list Action)
  : Externals toy_world := {|
  dotenv_values _ := ret [];
  fastworkflow_import := ret tt;
  fastworkflow_init _ := ret tt;
  clear_workflow_stack := raise (Exc "RuntimeError" "no workflow stack");
  new_chat_session _ := ret tt;
  start_workflow _ _ := ret tt;
  has_CommandTraceEventDirection := true;
  command_trace_get_nowait w :=
    (Returned (if yielding then fst (poll_trace w) else None), snd (poll_trace w));
  command_output_get_nowait w :=
    (Returned (if yielding then fst (poll_output w) else None), snd (poll_output w));
  user_message_put _ := ret tt;
  sleep_ms _ w := (Returned tt, toy_sleep w);
  RESPOND_ACTION_NAME := "respond";
  RESPOND_ACTION_FIELD_NAME := "content";
  env_task_instruction task_index :=
    match task_index with
    | Some _ => ret "Cancel reservation 4WQ150."
    | None =>
        raise (Exc "TypeError" "list indices must be integers or slices, not NoneType")
    end;
  env_reset _ w := (Returned tt, toy_with_data w example_data);
  env_step := toy_step;
  env_data := data;
  env_data_load_func := ret example_data;
  env_task_actions _ := task_actions;
  env_terminate_tools _ := ["transfer_to_human_agents"];
  env_tools_map _ := toy_tools;
  env_calculate_reward w :=
    (Returned {| rr_reward := if value_eqb (data w) (expected_data w) then 1%float else 0%float;
                 rr_model_dump := None |}, w)
|}.

(** A world with empty queues whose ground truth leaves the dataset as
    loaded. *)
Definition quiet_world : toy_world := {|
  trace_queue := []; output_queue := [];
  trace_polls := 0; output_polls := 0; sleeps := 0;
  user_fails := false;
  data := VDict []; expected_data := example_data
|}.

(** A world in which the agent has asked a question and the user simulator
    fails. *)
Definition failing_user_world : toy_world := {|
  trace_queue := []; output_queue := [StrOutput "Which reservation?"];
  trace_polls := 0; output_polls := 0; sleeps := 0;
  user_fails := true;
  data := VDict []; expected_data := example_data
|}.

(** The example dataset after the example actions below: reservation
    ["4WQ150"] cancelled with its payment refunded, and the mark of the
    failing tool. *)
Definition example_data_replayed : value :=
  VDict [("flights", VDict []);
         ("reservations",
          VDict [("4WQ150",
                  VDict [("reservation_id", VStr "4WQ150");
                         ("user_id", VStr "chen_jackson_3290");
                         ("payment_history",
                          VList [VDict [("payment_id", VStr "credit_card_1");
                                        ("amount", VInt 100)];
                                 VDict [("payment_id", VStr "credit_card_1");
                                        ("amount", VInt (-100))]]);
                         ("status", VStr "cancelled")]);
                 ("VAAOXJ", VDict [("payment_history", VList [])])]);
         ("users", VDict [("chen_jackson_3290", VDict [])]);
         ("touched", VBool true)].

Definition toy_adapter : FastWorkflowAgentAdapter :=
  {| wiki := "airline agent policy"; workflow_path := "examples/airline_workflow" |}.

(** Ground-truth actions: a terminal one, one without a tool, a cancellation
    of a missing reservation, one whose tool raises, and a cancellation. *)
Definition example_actions : list Action :=
  [TauAction "transfer_to_human_agents" [("summary", VStr "refund")];
   TauAction "think" [("thought", VStr "cancel it")];
   TauAction "cancel_reservation" [("reservation_id", VStr "ZZZZZZ")];
   TauAction "send_certificate" [("user_id", VStr "chen_jackson_3290"); ("amount", VInt 50)];
   TauAction "cancel_reservation" [("reservation_id", VStr "4WQ150")]].

(* ================================================================== *)
(** * Part II, continued: vocabulary of the further properties         *)
(* ================================================================== *)

(** A dataset in which reservation ["VAAOXJ"] has lost its payment
    history. *)
Definition example_data_broken : value :=
  VDict [("reservations", VDict [("4WQ150", example_reservation);
                                 ("VAAOXJ", VDict [("status", VStr "active")])])].

(** [out] is [diffs] with records appended whose paths all start with
    [path]. *)
Definition reports_under (path : string) (diffs out : list diff) : Prop :=
  exists rest,
    out = diffs ++ rest /\
    Forall (fun r => is_prefix path (diff_path r) = true) rest.

(** A comparison that keeps the records it is given and reports under its
    path. *)
Definition reporting_under (limit : Z) (compare : comparison) : Prop :=
  forall gt path diffs, reports_under path diffs (compare gt path diffs limit).

(** A value whose comparison, when it appends nothing below the cap, is with
    a value of the same structure. *)
Definition faithful (limit : Z) (agent : value) : Prop :=
  forall gt path diffs,
    full diffs limit = false ->
    _collect_diffs agent gt path diffs limit = diffs ->
    same_structure agent gt.


(** An entry of [actions_executed], as [_drain_command_trace] records it. *)
Definition recorded_action (v : value) : Prop :=
  exists cmd_name params response success,
    nonempty cmd_name = true /\
    v = VDict [("name", VStr cmd_name);
               ("kwargs", VDict params);
               ("response_text", response);
               ("success", success)].

Section DrainVocabulary.
Context {W : Type} {X : Externals W}.

(** The world after [n] reads of the command trace queue and nothing else. *)
Definition after_trace_polls (n : nat) (w : W) : W :=
  Nat.iter n (fun w' => snd (command_trace_get_nowait w')) w.

(** The world after [n] reads of the command output queue and nothing else. *)
Definition after_output_polls (n : nat) (w : W) : W :=
  Nat.iter n (fun w' => snd (command_output_get_nowait w')) w.

(** The reads a drain loop has made when it returns: one more than the items
    it processed when it stopped short of [max_drain], on an empty queue. *)
Definition polls_made (max_drain processed : nat) : nat :=
  if (processed <? max_drain)%nat then S processed else processed.

(** The same collaborators with other queues. *)
Definition with_queues (trace : M W (option TraceEvent))
    (outputs : M W (option CommandOutput)) : Externals W := {|
  dotenv_values := dotenv_values;
  fastworkflow_import := fastworkflow_import;
  fastworkflow_init := fastworkflow_init;
  clear_workflow_stack := clear_workflow_stack;
  new_chat_session := new_chat_session;
  start_workflow := start_workflow;
  has_CommandTraceEventDirection := has_CommandTraceEventDirection;
  command_trace_get_nowait := trace;
  command_output_get_nowait := outputs;
  user_message_put := user_message_put;
  sleep_ms := sleep_ms;
  RESPOND_ACTION_NAME := RESPOND_ACTION_NAME;
  RESPOND_ACTION_FIELD_NAME := RESPOND_ACTION_FIELD_NAME;
  env_task_instruction := env_task_instruction;
  env_reset := env_reset;
  env_step := env_step;
  env_data := env_data;
  env_data_load_func := env_data_load_func;
  env_task_actions := env_task_actions;
  env_terminate_tools := env_terminate_tools;
  env_tools_map := env_tools_map;
  env_calculate_reward := env_calculate_reward
|}.

End DrainVocabulary.

(** ** More example worlds *)

Definition cancel_event (dir : option Direction) (rid : string) : TraceEvent := {|
  direction := dir;
  command_name := VStr "cancel_reservation";
  parameters := ParamsDict [("reservation_id", VStr rid)];
  response_text := VStr "Cancellation result: done";
  success := VBool true
|}.

(** A world whose trace queue holds a command the agent sent, the same
    command as the workflow ran it, and an event without a command name;
    its output queue holds a blank output and a question. *)
Definition busy_world : toy_world := {|
  trace_queue := [cancel_event (Some AGENT_TO_WORKFLOW) "4WQ150";
                  cancel_event (Some WORKFLOW_TO_AGENT) "4WQ150";
                  {| direction := None; command_name := VNone; parameters := ParamsNone;
                     response_text := VStr "thinking"; success := VNone |}];
  output_queue := [StrOutput "   "; ResponsesOutput [VStr " Which reservation? "; VNone]];
  trace_polls := 0; output_polls := 0; sleeps := 0;
  user_fails := false;
  data := example_data; expected_data := example_data
|}.

(** The example collaborators with a trace queue that presents every event
    as sent by the agent, and an output queue that presents every item as a
    blank string. *)
Definition one_way_externals : Externals toy_world :=
  @with_queues toy_world (toy_externals true [])
    (fun w =>
       (Returned (option_map (fun evt => cancel_event (Some AGENT_TO_WORKFLOW) "4WQ150")
                             (fst (poll_trace w))),
        snd (poll_trace w)))
    (fun w =>
       (Returned (option_map (fun out => StrOutput "  ") (fst (poll_output w))),
        snd (poll_output w))).

(** [s] is [t] cut after [max(len(d), n)] records, and [t] is [d] with
    records appended. *)
Definition truncated (n : nat) (d s t : list diff) : Prop :=
  s = firstn (Nat.max (length d) n) t /\ exists r, t = d ++ r.

(** A step on the diff list, run under the cap [n] as [small] and under a
    higher cap as [large]: under the cap [n] a full list is returned as it
    is, and otherwise the outcome is that of the higher cap, cut. *)
Definition cut_of (n : nat) (small large : list diff -> list diff) : Prop :=
  (forall d, n <= length d -> small d = d) /\
  (forall d, truncated n d (small d) (large d)).

(** [replaced_at route agent gt va vg]: [agent] and [gt] have the same
    structure except at the one position reached by [route], where [agent]
    holds [va] and [gt] holds a value [vg] of another type. *)
Inductive replaced_at : list segment -> value -> value -> value -> value -> Prop :=
| replaced_here va vg :
    same_type va vg = false ->
    replaced_at [] va vg va vg
| replaced_key k route d1 d2 a g va vg :
    lookup d1 k = Some a ->
    lookup d2 k = Some g ->
    (forall k', k' <> k -> lookup d1 k' = None <-> lookup d2 k' = None) ->
    (forall k' a' g', k' <> k -> lookup d1 k' = Some a' -> lookup d2 k' = Some g' ->
                      same_structure a' g') ->
    replaced_at route a g va vg ->
    replaced_at (Key k :: route) (VDict d1) (VDict d2) va vg
| replaced_index l1 l1' l2 l2' route a g va vg :
    Forall2 same_structure l1 l1' ->
    Forall2 same_structure l2 l2' ->
    replaced_at route a g va vg ->
    replaced_at (Index (length l1) :: route)
                (VList (l1 ++ a :: l2)) (VList (l1' ++ g :: l2')) va vg.

(* ================================================================== *)
(** * Part III: properties                                             *)
(* ================================================================== *)

(** ** Dictionaries *)

Lemma lookup_dict_set_same (d : dict) k v : lookup (dict_set d k v) k = Some v.
Proof.
  induction d as [|[k' v'] d IH]; simpl.
  - now rewrite String.eqb_refl.
  - destruct (String.eqb k k') eqn:E; simpl; rewrite E; auto.
Qed.

Lemma lookup_dict_set_other (d : dict) k k' v :
  k' <> k -> lookup (dict_set d k v) k' = lookup d k'.
Proof.
  intros Hne. induction d as [|[k0 v0] d IH]; simpl.
  - destruct (String.eqb_spec k' k); congruence.
  - destruct (String.eqb_spec k k0) as [->|Hk]; simpl.
    + destruct (String.eqb_spec k' k0); congruence.
    + now rewrite IH.
Qed.

Lemma dict_set_same_value (d : dict) k v :
  lookup d k = Some v -> dict_set d k v = d.
Proof.
  induction d as [|[k' v'] d IH]; simpl; [discriminate|].
  destruct (String.eqb_spec k k') as [->|Hk]; intros H.
  - congruence.
  - now rewrite IH.
Qed.

Lemma field_setitem_same v k x d : v = VDict d -> field (setitem v k x) k = Some x.
Proof. intros ->. apply lookup_dict_set_same. Qed.

Lemma field_setitem_other v k k' x : k' <> k -> field (setitem v k x) k' = field v k'.
Proof. destruct v; simpl; auto. intros. now apply lookup_dict_set_other. Qed.

Lemma field_getitem v k x : field v k = Some x -> getitem v k = Returned x.
Proof. destruct v; simpl; try discriminate. now intros ->. Qed.

Lemma field_is_dict v k x : field v k = Some x -> exists d, v = VDict d.
Proof. destruct v; simpl; try discriminate. eauto. Qed.

Lemma field_contains v k x : field v k = Some x -> contains v k = Returned true.
Proof.
  destruct v; simpl; try discriminate. unfold has_key. now intros ->.
Qed.

(** ** CancelReservation.invoke *)

Import CancelReservation.





Lemma payment_history_field r ph :
  payment_history r = Some ph -> field r "payment_history" = Some (VList ph).
Proof.
  unfold payment_history.
  destruct (field r "payment_history") as [[]|]; try discriminate. congruence.
Qed.


Lemma reservation_at_with data rid r r' :
  reservation_at data rid = Some r ->
  reservation_at (with_reservation data rid r') rid = Some r'.
Proof.
  unfold reservation_at, with_reservation. intros H.
  destruct (field data "reservations") as [reservations|] eqn:Hres; [|discriminate].
  destruct (field_is_dict _ _ _ Hres) as [d ->].
  destruct (field_is_dict _ _ _ H) as [d' ->].
  simpl. rewrite lookup_dict_set_same. simpl. apply lookup_dict_set_same.
Qed.

Lemma payment_history_cancelled r ph0 ph rs :
  payment_history r = Some ph0 ->
  payment_history (cancelled r ph rs) = Some (ph ++ rs).
Proof.
  intros H. apply payment_history_field in H.
  destruct (field_is_dict _ _ _ H) as [d ->].
  unfold payment_history, cancelled. simpl.
  rewrite lookup_dict_set_other by discriminate.
  now rewrite lookup_dict_set_same.
Qed.

Lemma status_cancelled r ph0 ph rs :
  payment_history r = Some ph0 ->
  field (cancelled r ph rs) "status" = Some (VStr "cancelled").
Proof.
  intros H. apply payment_history_field in H.
  destruct (field_is_dict _ _ _ H) as [d ->].
  unfold cancelled. simpl. apply lookup_dict_set_same.
Qed.



(** The end-to-end scenario of the specification, evaluated. *)
Example invoke_4WQ150 :
  exists r',
    reservation_at (snd (invoke example_data "4WQ150")) "4WQ150" = Some r' /\
    fst (invoke example_data "4WQ150") = Returned (json_dumps r') /\
    field r' "payment_history" =
      Some (VList [VDict [("payment_id", VStr "credit_card_1"); ("amount", VInt 100)];
                   VDict [("payment_id", VStr "credit_card_1"); ("amount", VInt (-100))]]) /\
    field r' "status" = Some (VStr "cancelled").
Proof. eexists. repeat split. Qed.

(** C2. When [data["reservations"]] does not hold [rid],
    [CancelReservation.invoke] returns exactly
    ["Error: reservation not found"] and the dataset is unchanged. *)
Theorem invoke_not_found data reservations rid :
  getitem data "reservations" = Returned reservations ->
  contains reservations rid = Returned false ->
  invoke data rid = (Returned "Error: reservation not found", data).
Proof. intros Hres Hnot. unfold invoke. now rewrite Hres, Hnot. Qed.

Lemma invoke_not_found_witness :
  invoke example_data "ZZZZZZ" = (Returned "Error: reservation not found", example_data).
Proof.
  apply (invoke_not_found example_data
           (VDict [("4WQ150", example_reservation);
                   ("VAAOXJ", VDict [("payment_history", VList [])])]) "ZZZZZZ");
    reflexivity.
Defined.

(** The dataset after a call on an existing reservation: untouched when the
    call raises, and otherwise the old one with the reservation's
    [payment_history] and [status] reassigned. *)
Lemma invoke_data_cases data rid r :
  reservation_at data rid = Some r ->
  snd (invoke data rid) = data \/
  exists h,
    snd (invoke data rid) =
      with_reservation data rid
        (setitem (setitem r "payment_history" h) "status" (VStr "cancelled")) /\
    exists d, r = VDict d.
Proof.
  unfold reservation_at, with_reservation. intros Hr.
  destruct (field data "reservations") as [reservations|] eqn:Hres; [|discriminate].
  unfold invoke.
  rewrite (field_getitem _ _ _ Hres), (field_contains _ _ _ Hr), (field_getitem _ _ _ Hr).
  destruct (extended_history r) as [h|e] eqn:Hh; [|now left].
  right. exists h. split; [reflexivity|].
  unfold extended_history in Hh.
  destruct r; simpl in Hh; try discriminate. eauto.
Qed.

Lemma field_with_reservation data rid r' k :
  k <> "reservations" ->
  field (with_reservation data rid r') k = field data k.
Proof.
  intros Hk. unfold with_reservation.
  destruct (field data "reservations"); [|reflexivity].
  now apply field_setitem_other.
Qed.

Lemma reservation_at_with_other data rid rid' r' :
  rid' <> rid ->
  reservation_at (with_reservation data rid r') rid' = reservation_at data rid'.
Proof.
  intros Hne. unfold reservation_at, with_reservation.
  destruct (field data "reservations") as [reservations|] eqn:Hres; [|now rewrite Hres].
  destruct (field_is_dict _ _ _ Hres) as [d ->].
  simpl. rewrite lookup_dict_set_same. now apply field_setitem_other.
Qed.

(** C10. A call on an existing reservation leaves every other top-level
    entry of the dataset, every other reservation, and every field of the
    targeted reservation other than [payment_history] and [status] as they
    were. *)
Theorem invoke_frame data rid r :
  reservation_at data rid = Some r ->
  (forall k, k <> "reservations" ->
             field (snd (invoke data rid)) k = field data k) /\
  (forall rid', rid' <> rid ->
                reservation_at (snd (invoke data rid)) rid' = reservation_at data rid') /\
  (exists r', reservation_at (snd (invoke data rid)) rid = Some r' /\
              forall f, f <> "payment_history" -> f <> "status" ->
                        field r' f = field r f).
Proof.
  intros Hr.
  destruct (invoke_data_cases data rid r Hr) as [-> | (h & -> & d & ->)].
  - repeat split; auto. now exists r.
  - split; [intros; now apply field_with_reservation|].
    split; [intros; now apply reservation_at_with_other|].
    eexists. split; [now apply reservation_at_with with (r := VDict d)|].
    intros f Hf1 Hf2. simpl.
    now rewrite !lookup_dict_set_other.
Qed.

Lemma invoke_frame_witness :
  (forall k, k <> "reservations" ->
             field (snd (invoke example_data "4WQ150")) k = field example_data k) /\
  (forall rid', rid' <> "4WQ150" ->
                reservation_at (snd (invoke example_data "4WQ150")) rid'
                = reservation_at example_data rid') /\
  (exists r', reservation_at (snd (invoke example_data "4WQ150")) "4WQ150" = Some r' /\
              forall f, f <> "payment_history" -> f <> "status" ->
                        field r' f = field example_reservation f).
Proof. apply (invoke_frame example_data "4WQ150" example_reservation). reflexivity. Defined.

Lemma with_reservation_same data rid r :
  reservation_at data rid = Some r -> with_reservation data rid r = data.
Proof.
  unfold reservation_at, with_reservation. intros Hr.
  destruct (field data "reservations") as [reservations|] eqn:Hres; [|discriminate].
  destruct (field_is_dict _ _ _ Hres) as [d ->].
  destruct (field_is_dict _ _ _ Hr) as [d' ->].
  simpl in *. rewrite (dict_set_same_value d' rid r Hr).
  now rewrite (dict_set_same_value d "reservations" (VDict d') Hres).
Qed.





(** ** _collect_diffs *)

(** Induction on a value together with the values nested in it. *)
Section ValueInduction.
Variable P : value -> Prop.
Hypothesis HNone : P VNone.
Hypothesis HBool : forall b, P (VBool b).
Hypothesis HInt : forall n, P (VInt n).
Hypothesis HStr : forall s, P (VStr s).
Hypothesis HList : forall l, Forall P l -> P (VList l).
Hypothesis HDict : forall d, Forall (fun kv => P (snd kv)) d -> P (VDict d).

Fixpoint value_nested_ind (v : value) : P v :=
  match v with
  | VNone => HNone
  | VBool b => HBool b
  | VInt n => HInt n
  | VStr s => HStr s
  | VList l =>
      HList l ((fix all (l : list value) : Forall P l :=
                  match l with
                  | [] => Forall_nil _
                  | x :: l' => Forall_cons x (value_nested_ind x) (all l')
                  end) l)
  | VDict d =>
      HDict d ((fix all (d : dict) : Forall (fun kv => P (snd kv)) d :=
                  match d with
                  | [] => Forall_nil _
                  | kv :: d' => Forall_cons kv (value_nested_ind (snd kv)) (all d')
                  end) d)
  end.
End ValueInduction.

Lemma lookup_In {A} (d : list (string * A)) k v : lookup d k = Some v -> In (k, v) d.
Proof.
  induction d as [|[k' v'] d IH]; simpl; [discriminate|].
  destruct (String.eqb_spec k k') as [->|_]; intros H.
  - left. congruence.
  - right. auto.
Qed.

Lemma lookup_keys {A} (d : list (string * A)) k v : lookup d k = Some v -> In k (map fst d).
Proof. intros H. apply lookup_In in H. now apply (in_map fst) in H. Qed.

(** The bindings [_collect_diffs] hands to the key loop. *)
Lemma lookup_sub (f : value -> comparison) (a : dict) k :
  lookup (bind_comparisons f a) k = option_map (fun v => (v, f v)) (lookup a k).
Proof.
  unfold bind_comparisons. induction a as [|[k' v] a IH]; simpl; [reflexivity|].
  now destruct (String.eqb k k').
Qed.

Lemma string_length_append s1 s2 :
  String.length (s1 ++ s2) = String.length s1 + String.length s2.
Proof. induction s1; simpl; auto. Qed.

Lemma key_path_length path k : String.length path <= String.length (key_path path k).
Proof.
  destruct path; simpl; [lia|]. rewrite string_length_append. lia.
Qed.

Lemma index_path_length path i : S (String.length path) <= String.length (index_path path i).
Proof.
  destruct path; simpl; [lia|]. rewrite string_length_append. simpl. lia.
Qed.

Lemma full_false diffs limit :
  full diffs limit = false -> (Z.of_nat (length diffs) < limit)%Z.
Proof. unfold full. intros H. apply Z.leb_gt in H. lia. Qed.

Lemma appended_refl n diffs limit : appended n diffs limit diffs.
Proof. exists []. rewrite app_nil_r. repeat split; [lia|constructor]. Qed.

Lemma appended_one n diffs limit r :
  full diffs limit = false -> n <= String.length (diff_path r) ->
  appended n diffs limit (diffs ++ [r]).
Proof.
  intros Hfull Hn. apply full_false in Hfull. exists [r].
  repeat split; [|now constructor]. rewrite length_app. simpl. lia.
Qed.

Lemma appended_trans n m diffs limit out1 out2 :
  appended n diffs limit out1 -> appended m out1 limit out2 -> n <= m ->
  appended n diffs limit out2.
Proof.
  intros (r1 & -> & Hb1 & Hp1) (r2 & -> & Hb2 & Hp2) Hnm.
  exists (r1 ++ r2). rewrite app_assoc. repeat split; [lia|].
  apply Forall_app. split; [assumption|].
  eapply Forall_impl; [|exact Hp2]. simpl. intros; lia.
Qed.

Lemma appended_weaken n m diffs limit out :
  appended m diffs limit out -> n <= m -> appended n diffs limit out.
Proof.
  intros H Hnm. apply (appended_trans n m diffs limit diffs out); auto using appended_refl.
Qed.

Lemma keys_loop_appended sub g path limit :
  (forall k av compare, lookup sub k = Some (av, compare) -> appending limit compare) ->
  forall ks diffs,
    appended (String.length path) diffs limit (keys_loop sub g path limit ks diffs).
Proof.
  intros Hsub. induction ks as [|k ks IH]; intros diffs; simpl.
  - apply appended_refl.
  - destruct (full diffs limit) eqn:Hfull; [apply appended_refl|].
    pose proof (key_path_length path k) as Hlen.
    destruct (lookup sub k) as [[av compare]|] eqn:Hk; destruct (lookup g k) as [gv|].
    + eapply appended_trans; [|apply IH|lia].
      eapply appended_weaken; [apply (Hsub _ _ _ Hk)|exact Hlen].
    + eapply appended_trans; [|apply IH|lia]. now apply appended_one.
    + eapply appended_trans; [|apply IH|lia]. now apply appended_one.
    + apply IH.
Qed.

Lemma zip_loop_appended compare path limit a :
  Forall (fun av => appending limit (compare av)) a ->
  forall g i diffs,
    appended (S (String.length path)) diffs limit (zip_loop compare path limit a g i diffs).
Proof.
  induction 1 as [|av a Hav _ IH]; intros g i diffs; simpl.
  - apply appended_refl.
  - destruct g as [|gv g]; [apply appended_refl|].
    destruct (full diffs limit); [apply appended_refl|].
    eapply appended_trans; [|apply IH|lia].
    eapply appended_weaken; [apply Hav|apply index_path_length].
Qed.

(** Every call appends to [diffs], stays within the cap, and reports paths
    that extend [path]. *)
Lemma collect_diffs_appending agent limit : appending limit (_collect_diffs agent).
Proof.
  induction agent as [| b | n | s | a IH | a IH] using value_nested_ind;
    intros gt path diffs; simpl;
    (destruct (full diffs limit) eqn:Hfull; [apply appended_refl|]);
    destruct gt; simpl; try (now apply appended_one); try apply appended_refl;
    try (match goal with |- context [if ?c then _ else _] => destruct c end;
         solve [apply appended_refl | now apply appended_one]).
  - destruct (length a =? length l)%nat.
    + eapply appended_weaken; [now apply zip_loop_appended|lia].
    + apply appended_trans
        with (m := String.length path)
             (out1 := diffs ++ [LengthDiff path (length a) (length l)]);
        [now apply appended_one| |lia].
      eapply appended_weaken; [now apply zip_loop_appended|lia].
  - apply keys_loop_appended. intros k av compare Hk.
    rewrite lookup_sub in Hk.
    destruct (lookup a k) as [v|] eqn:Hv; [|discriminate].
    injection Hk as <- <-.
    rewrite Forall_forall in IH. apply (IH (k, v)). now apply lookup_In.
Qed.

(** C8. Whatever the compared values, the path and the limit,
    [_collect_diffs] leaves at most [max(len(diffs), limit)] records in
    [diffs]; from an empty list, at most [limit] (none when [limit] is not
    positive). *)
Theorem collect_diffs_capped :
  (forall agent gt path diffs limit,
      (Z.of_nat (length (_collect_diffs agent gt path diffs limit))
       <= Z.max (Z.of_nat (length diffs)) limit)%Z) /\
  (forall agent gt path limit,
      (Z.of_nat (length (_collect_diffs agent gt path [] limit)) <= Z.max 0 limit)%Z).
Proof.
  split; intros.
  - destruct (collect_diffs_appending agent limit gt path diffs) as (rest & _ & H & _).
    exact H.
  - destruct (collect_diffs_appending agent limit gt path []) as (rest & _ & H & _).
    exact H.
Qed.

Lemma zip_loop_full compare path limit a g i diffs :
  full diffs limit = true -> zip_loop compare path limit a g i diffs = diffs.
Proof. intros H. destruct a, g; simpl; try reflexivity. now rewrite H. Qed.

(** The element loop reads the two lists up to the length of the shorter. *)
Lemma zip_loop_firstn compare path limit a :
  forall g i diffs,
    zip_loop compare path limit a g i diffs
    = zip_loop compare path limit
        (firstn (Nat.min (length a) (length g)) a)
        (firstn (Nat.min (length a) (length g)) g) i diffs.
Proof.
  induction a as [|av a IH]; intros g i diffs; [reflexivity|].
  destruct g as [|gv g]; [reflexivity|]. simpl.
  destruct (full diffs limit); [reflexivity|]. apply IH.
Qed.

Lemma min_firstn_length {A B} (a : list A) (g : list B) :
  length (firstn (Nat.min (length a) (length g)) a)
  = length (firstn (Nat.min (length a) (length g)) g).
Proof. rewrite !length_firstn. lia. Qed.

Lemma collect_diffs_at_cap agent gt path diffs limit :
  full diffs limit = true -> _collect_diffs agent gt path diffs limit = diffs.
Proof. intros H. destruct agent; simpl; now rewrite H. Qed.

Lemma index_path_element path i : index_path path i = element_path path i.
Proof. now destruct path. Qed.

Lemma pairs_at_cap path limit (l : list (nat * (value * value))) :
  forall diffs,
    full diffs limit = true ->
    fold_left
      (fun acc p =>
         _collect_diffs (fst (snd p)) (snd (snd p)) (element_path path (fst p)) acc limit)
      l diffs = diffs.
Proof.
  induction l as [|p l IH]; intros diffs H; simpl; [reflexivity|].
  rewrite collect_diffs_at_cap by exact H. now apply IH.
Qed.

(** The element loop is the comparison of the index pairs in turn. *)
Lemma zip_loop_pairs path limit a :
  forall g i diffs,
    zip_loop _collect_diffs path limit a g i diffs
    = fold_left
        (fun acc p =>
           _collect_diffs (fst (snd p)) (snd (snd p)) (element_path path (fst p)) acc limit)
        (combine (seq i (length a)) (combine a g)) diffs.
Proof.
  induction a as [|av a IH]; intros g i diffs; [reflexivity|].
  destruct g as [|gv g]; [reflexivity|].
  cbn [length seq combine fold_left fst snd]. simpl zip_loop.
  destruct (full diffs limit) eqn:Hfull.
  - rewrite collect_diffs_at_cap by exact Hfull. symmetry. now apply pairs_at_cap.
  - rewrite index_path_element. apply IH.
Qed.

Lemma index_pairs_length (a g : list value) :
  length (index_pairs a g) = Nat.min (length a) (length g).
Proof. unfold index_pairs. rewrite !length_combine, length_seq. lia. Qed.

(** C9. When [_collect_diffs] gets past the cap check with two lists of
    different lengths [n] and [m], it appends one length record for [path],
    holding the two lengths, and then compares the elements pairwise: the
    outcome is that of comparing, with the length record in place, element
    [i] of the one list with element [i] of the other under the path
    [path[i]], for the index pairs of the two lists cut to the length of the
    shorter, of which there are [min n m].  The trailing elements of the
    longer list are not read, and every record after the length record has
    another path. *)
Theorem collect_diffs_unequal_lists a g path diffs limit :
  full diffs limit = false ->
  length a <> length g ->
  _collect_diffs (VList a) (VList g) path diffs limit
  = pairwise path limit
      (firstn (Nat.min (length a) (length g)) a)
      (firstn (Nat.min (length a) (length g)) g)
      (diffs ++ [LengthDiff path (length a) (length g)]) /\
  length (index_pairs (firstn (Nat.min (length a) (length g)) a)
                      (firstn (Nat.min (length a) (length g)) g))
  = Nat.min (length a) (length g) /\
  exists rest,
    _collect_diffs (VList a) (VList g) path diffs limit
    = diffs ++ LengthDiff path (length a) (length g) :: rest /\
    Forall (fun r => diff_path r <> path) rest.
Proof.
  intros Hfull Hlen. simpl. rewrite Hfull.
  apply Nat.eqb_neq in Hlen. rewrite Hlen.
  set (diffs' := diffs ++ [LengthDiff path (length a) (length g)]).
  split; [|split].
  - rewrite zip_loop_firstn. apply zip_loop_pairs.
  - rewrite index_pairs_length, !length_firstn. lia.
  - destruct (zip_loop_appended _collect_diffs path limit a
                (proj2 (Forall_forall _ a)
                       (fun av _ => collect_diffs_appending av limit))
                g 0 diffs') as (rest & Hout & _ & Hpaths).
    exists rest. split.
    + rewrite Hout. unfold diffs'. now rewrite <- app_assoc.
    + eapply Forall_impl; [|exact Hpaths]. simpl. intros r Hr Heq.
      rewrite Heq in Hr. lia.
Qed.

Lemma collect_diffs_unequal_lists_witness :
  full [] 50 = false /\
  length [VInt 1; VInt 2] <> length [VInt 1; VInt 5; VInt 9; VInt 9] /\
  _collect_diffs (VList [VInt 1; VInt 2]) (VList [VInt 1; VInt 5; VInt 9; VInt 9]) "c" [] 50
  = [LengthDiff "c" 2 4; ValueDiff "c[1]" "2" "5"].
Proof.
  assert (H1 : full [] 50 = false) by reflexivity.
  assert (H2 : length [VInt 1; VInt 2] <> length [VInt 1; VInt 5; VInt 9; VInt 9])
    by (simpl; lia).
  split; [exact H1|]. split; [exact H2|].
  exact (proj1 (collect_diffs_unequal_lists
                  [VInt 1; VInt 2] [VInt 1; VInt 5; VInt 9; VInt 9] "c" [] 50 H1 H2)).
Defined.

(** A longer and a shorter list, evaluated: one length record, then the
    first index pair only. *)
Example collect_diffs_lists_3_2 :
  _collect_diffs (VList [VInt 1; VInt 2; VInt 3]) (VList [VInt 1; VInt 5]) "c" [] 50
  = [LengthDiff "c" 3 2; ValueDiff "c[1]" "2" "5"].
Proof. reflexivity. Qed.

Lemma zip_loop_same path limit l1 l2 :
  Forall2 (fun a g => forall p diffs, _collect_diffs a g p diffs limit = diffs) l1 l2 ->
  forall i diffs, zip_loop _collect_diffs path limit l1 l2 i diffs = diffs.
Proof.
  induction 1 as [|a g l1 l2 Hag _ IH]; intros i diffs; simpl; [reflexivity|].
  destruct (full diffs limit); [reflexivity|]. now rewrite Hag.
Qed.

Lemma Forall2_same_structure (P : value -> value -> Prop) l1 l2 :
  Forall (fun a => forall g, same_structure a g -> P a g) l1 ->
  Forall2 same_structure l1 l2 ->
  Forall2 P l1 l2.
Proof.
  intros Hall H. induction H as [|a g l1 l2 Hag _ IH]; constructor.
  - inversion Hall; subst; auto.
  - apply IH. now inversion Hall.
Qed.

Lemma keys_loop_same limit d1 d2 path :
  (forall k, lookup d1 k = None <-> lookup d2 k = None) ->
  (forall k a g, lookup d1 k = Some a -> lookup d2 k = Some g ->
                 forall p diffs, _collect_diffs a g p diffs limit = diffs) ->
  forall ks diffs,
    keys_loop (bind_comparisons _collect_diffs d1) d2 path limit ks diffs = diffs.
Proof.
  intros Hnone Hsome. induction ks as [|k ks IH]; intros diffs; simpl; [reflexivity|].
  destruct (full diffs limit); [reflexivity|].
  rewrite lookup_sub.
  destruct (lookup d1 k) as [a|] eqn:Ha; simpl.
  - destruct (lookup d2 k) as [g|] eqn:Hg.
    + now rewrite (Hsome k a g Ha Hg).
    + apply Hnone in Hg. congruence.
  - apply Hnone in Ha. rewrite Ha. apply IH.
Qed.

(** Comparing two values of the same structure appends nothing. *)
Lemma collect_diffs_same_structure limit agent :
  forall gt, same_structure agent gt ->
             forall path diffs, _collect_diffs agent gt path diffs limit = diffs.
Proof.
  induction agent as [| b | n | s | l IH | d IH] using value_nested_ind;
    intros gt Hsame path diffs; inversion Hsame; subst; simpl;
    destruct (full diffs limit) eqn:Hfull; try reflexivity.
  - now rewrite Bool.eqb_reflx.
  - now rewrite Z.eqb_refl.
  - now rewrite String.eqb_refl.
  - match goal with H : Forall2 same_structure _ _ |- _ =>
      rewrite (Forall2_length H), Nat.eqb_refl;
      apply zip_loop_same;
      apply (Forall2_same_structure
               (fun a g => forall p diffs', _collect_diffs a g p diffs' limit = diffs')
               _ _ IH H)
    end.
  - apply keys_loop_same; [assumption|].
    intros k a g Ha Hg. rewrite Forall_forall in IH.
    apply (IH (k, a) (lookup_In _ _ _ Ha)). eauto.
Qed.

Lemma same_structure_refl v : same_structure v v.
Proof.
  induction v as [| b | n | s | l IH | d IH] using value_nested_ind; try constructor.
  - induction IH; constructor; auto.
  - reflexivity.
  - intros k a g Ha Hg. rewrite Ha in Hg. injection Hg as <-.
    rewrite Forall_forall in IH. exact (IH (k, a) (lookup_In _ _ _ Ha)).
Qed.

Lemma collect_diffs_same v limit :
  forall path diffs, _collect_diffs v v path diffs limit = diffs.
Proof. apply collect_diffs_same_structure, same_structure_refl. Qed.


Section OneKey.
Variables (d1 d2 : dict) (k : string) (a g : value) (path : string) (limit : Z) (r : diff).
Hypothesis Hd1 : lookup d1 k = Some a.
Hypothesis Hd2 : lookup d2 k = Some g.
Hypothesis Hnone : forall k', k' <> k -> lookup d1 k' = None <-> lookup d2 k' = None.
Hypothesis Hsome :
  forall k' a' g', k' <> k -> lookup d1 k' = Some a' -> lookup d2 k' = Some g' ->
                   same_structure a' g'.

Lemma other_key_skipped k0 ks diffs :
  k0 <> k ->
  full diffs limit = false ->
  keys_loop (bind_comparisons _collect_diffs d1) d2 path limit (k0 :: ks) diffs
  = keys_loop (bind_comparisons _collect_diffs d1) d2 path limit ks diffs.
Proof.
  intros Hk0 Hfull. simpl. rewrite Hfull, lookup_sub.
  destruct (lookup d1 k0) as [a'|] eqn:Ha; simpl.
  - destruct (lookup d2 k0) as [g'|] eqn:Hg.
    + now rewrite (collect_diffs_same_structure limit a' g' (Hsome k0 a' g' Hk0 Ha Hg)).
    + apply (Hnone k0 Hk0) in Hg. congruence.
  - apply (Hnone k0 Hk0) in Ha. now rewrite Ha.
Qed.
Hypothesis Hcompare :
  forall diffs, full diffs limit = false ->
                _collect_diffs a g (key_path path k) diffs limit = diffs ++ [r].

Lemma keys_loop_other ks :
  ~ In k ks ->
  forall diffs,
    keys_loop (bind_comparisons _collect_diffs d1) d2 path limit ks diffs = diffs.
Proof.
  induction ks as [|k0 ks IH]; intros Hin diffs; [reflexivity|].
  destruct (full diffs limit) eqn:Hfull; [simpl; now rewrite Hfull|].
  rewrite other_key_skipped; [|intros ->; apply Hin; now left|assumption].
  apply IH. intros H. apply Hin. now right.
Qed.

Lemma keys_loop_one ks :
  NoDup ks -> In k ks ->
  forall diffs,
    full diffs limit = false ->
    keys_loop (bind_comparisons _collect_diffs d1) d2 path limit ks diffs = diffs ++ [r].
Proof.
  induction 1 as [|k0 ks Hnotin Hnodup IH]; intros Hin diffs Hfull; [destruct Hin|].
  destruct (String.eqb_spec k0 k) as [->|Hk0].
  - simpl. rewrite Hfull, lookup_sub, Hd1, Hd2. simpl. rewrite (Hcompare diffs Hfull).
    now apply keys_loop_other.
  - destruct Hin as [Heq|Hin]; [congruence|].
    rewrite other_key_skipped by assumption. now apply IH.
Qed.
End OneKey.

Lemma insert_sorted_perm k l : Permutation (k :: l) (insert_sorted k l).
Proof.
  induction l as [|x l IH]; simpl; [reflexivity|].
  destruct (String.leb k x); [reflexivity|].
  rewrite perm_swap. now apply perm_skip.
Qed.

Lemma sorted_perm l : Permutation l (sorted l).
Proof.
  induction l as [|k l IH]; simpl; [constructor|].
  rewrite <- insert_sorted_perm. now apply perm_skip.
Qed.

Lemma insert_sorted_hd k x l :
  String.leb x k = true ->
  HdRel (fun a b => String.leb a b = true) x l ->
  HdRel (fun a b => String.leb a b = true) x (insert_sorted k l).
Proof.
  intros Hxk Hl. destruct l as [|y l]; simpl; [now constructor|].
  destruct (String.leb k y); constructor; [assumption|]. now inversion Hl.
Qed.

Lemma insert_sorted_sorted k l :
  Sorted (fun a b => String.leb a b = true) l ->
  Sorted (fun a b => String.leb a b = true) (insert_sorted k l).
Proof.
  induction 1 as [|x l Hl IH Hx]; simpl; [now repeat constructor|].
  destruct (String.leb k x) eqn:Hkx.
  - repeat constructor; assumption.
  - constructor; [assumption|]. apply insert_sorted_hd; [|assumption].
    destruct (String.leb_total k x); congruence.
Qed.

(** [sorted] gives its argument in ascending order. *)
Lemma sorted_sorted l : Sorted (fun a b => String.leb a b = true) (sorted l).
Proof.
  induction l as [|k l IH]; simpl; [constructor|]. now apply insert_sorted_sorted.
Qed.

Lemma sorted_union_keys_nodup a g : NoDup (sorted (union_keys a g)).
Proof.
  eapply Permutation_NoDup; [apply sorted_perm|]. apply NoDup_nodup.
Qed.

Lemma sorted_union_keys_in a g k :
  In k (sorted (union_keys a g)) <-> In k (keys a) \/ In k (keys g).
Proof.
  split.
  - intros H. apply (Permutation_in _ (Permutation_sym (sorted_perm _))) in H.
    apply nodup_In in H. now apply in_app_or.
  - intros H. apply (Permutation_in _ (sorted_perm _)).
    apply nodup_In. now apply in_or_app.
Qed.

Lemma keys_lookup (d : dict) k : In k (keys d) -> exists v, lookup d k = Some v.
Proof.
  induction d as [|[k' v] d IH]; simpl; [intros []|].
  destruct (String.eqb_spec k k') as [->|Hne]; [eauto|].
  intros [Heq|Hin]; [congruence|auto].
Qed.

(** Every key the loop visits is bound in one of the two dictionaries. *)
Lemma sorted_union_keys_bound a g k :
  In k (sorted (union_keys a g)) ->
  (exists v, lookup a k = Some v) \/ (exists v, lookup g k = Some v).
Proof.
  intros H. apply sorted_union_keys_in in H as [H|H]; [left|right]; now apply keys_lookup.
Qed.

Lemma zip_loop_same_structure path limit l1 l2 :
  Forall2 same_structure l1 l2 ->
  forall i diffs, zip_loop _collect_diffs path limit l1 l2 i diffs = diffs.
Proof.
  intros H. apply zip_loop_same.
  eapply Forall2_impl; [|exact H]. intros a g Hag p diffs.
  now apply collect_diffs_same_structure.
Qed.

Lemma zip_loop_common_prefix path limit l1 l1' a g :
  Forall2 same_structure l1 l1' ->
  forall i diffs,
    full diffs limit = false ->
    zip_loop _collect_diffs path limit (l1 ++ a) (l1' ++ g) i diffs
    = zip_loop _collect_diffs path limit a g (length l1 + i) diffs.
Proof.
  induction 1 as [|v v' l1 l1' Hv _ IH]; intros i diffs Hfull; simpl; [reflexivity|].
  rewrite Hfull, (collect_diffs_same_structure limit v v' Hv), (IH (S i) diffs Hfull).
  f_equal. lia.
Qed.










(** Case analysis on the key that a lookup in a concrete dictionary tests. *)
Ltac key_cases :=
  simpl;
  repeat match goal with
         | |- context [String.eqb ?k ?s] =>
             destruct (String.eqb_spec k s) as [->|?]; simpl
         end.

(** [same_structure] between two concrete values. *)
Ltac solve_same :=
  lazymatch goal with
  | |- same_structure (VDict _) (VDict _) =>
      apply same_dict;
      [ let k := fresh "k" in
        intros k; key_cases; split; congruence
      | let k := fresh "k" in
        let a := fresh "a" in
        let g := fresh "g" in
        let Ha := fresh "Ha" in
        let Hg := fresh "Hg" in
        intros k a g; key_cases; intros Ha Hg; try discriminate;
        injection Ha as <-; injection Hg as <-; solve_same ]
  | |- same_structure (VList _) (VList _) =>
      apply same_list; repeat (constructor; [solve_same|]); constructor
  | |- same_structure _ _ => constructor
  end.


Lemma example_data_same_structure :
  same_structure
    (VDict [("a", VList [VInt 1; VDict [("x", VNone); ("y", VBool true)]]); ("b", VStr "s")])
    (VDict [("b", VStr "s"); ("a", VList [VInt 1; VDict [("y", VBool true); ("x", VNone)]])]).
Proof. solve_same. Qed.






(** ** The adapter: ground-truth replay *)

Section AdapterProperties.
Context {W : Type} {X : Externals W}.

Lemma replay_app w l1 l2 d : replay w (l1 ++ l2) d = replay w l2 (replay w l1 d).
Proof. revert d. induction l1 as [|a l1 IH]; intros d; simpl; auto. Qed.

Lemma terminal_action w a :
  In (action_name a) (env_terminate_tools w) ->
  existsb (String.eqb (action_name a)) (env_terminate_tools w) = true.
Proof.
  intros H. apply existsb_exists. exists (action_name a).
  split; [assumption|apply String.eqb_refl].
Qed.

Lemma non_terminal_action w a :
  ~ In (action_name a) (env_terminate_tools w) ->
  existsb (String.eqb (action_name a)) (env_terminate_tools w) = false.
Proof.
  intros H. destruct (existsb _ _) eqn:E; [|reflexivity].
  apply existsb_exists in E as (x & Hin & Hx). apply String.eqb_eq in Hx. now subst.
Qed.

(** The replay loop leaves a dataset that the actions replay to. *)
Lemma replay_replayed w actions :
  forall d, replayed w actions d (replay w actions d).
Proof.
  induction actions as [|a rest IH]; intros d; simpl; [constructor|].
  unfold replay_action.
  destruct (existsb (String.eqb (action_name a)) (env_terminate_tools w)) eqn:Hterm.
  - apply replayed_terminal; [|apply IH].
    apply existsb_exists in Hterm as (x & Hin & Hx).
    apply String.eqb_eq in Hx. now rewrite Hx.
  - destruct (env_tools_map w (action_name a)) as [tool_cls|] eqn:Htool.
    + eapply replayed_invoked; [|exact Htool|apply IH].
      intros Hin. rewrite (terminal_action _ _ Hin) in Hterm. discriminate Hterm.
    + apply replayed_no_tool; [exact Htool|apply IH].
Qed.

(** The actions replay to no other dataset than the one the loop leaves. *)
Lemma replayed_replay w actions d d' :
  replayed w actions d d' -> replay w actions d = d'.
Proof.
  induction 1 as [d | a rest d d' Hterm _ IH | a rest d d' Htool _ IH
                 | a rest d d' tool_cls Hterm Htool _ IH];
    simpl; unfold replay_action.
  - reflexivity.
  - now rewrite (terminal_action _ _ Hterm).
  - rewrite Htool. now destruct (existsb _ _).
  - now rewrite (non_terminal_action _ _ Hterm), Htool.
Qed.

(** C7. Once [env.data_load_func()] has returned the fresh dataset, the
    task's actions replay on it to a dataset, whatever the tools do: in
    order, with every terminal action and every action without a tool
    skipped, and with the dataset going on as a tool invocation left it,
    whether the invocation returned or raised.  [_simulate_gt_data] returns
    that dataset, and no other. *)
Theorem simulate_gt_data_replays w d0 w0 :
  env_data_load_func w = (Returned d0, w0) ->
  (exists d', replayed w0 (env_task_actions w0) d0 d') /\
  (forall d', replayed w0 (env_task_actions w0) d0 d' ->
              _simulate_gt_data w = (Returned d', w0)).
Proof.
  intros Hload. split.
  - exists (replay w0 (env_task_actions w0) d0). apply replay_replayed.
  - intros d' Hreplayed. unfold _simulate_gt_data, bindM. rewrite Hload.
    now rewrite (replayed_replay _ _ _ _ Hreplayed).
Qed.

(** ** The adapter: the interaction loop *)

Lemma drain_command_trace_idle n texts actions w :
  fst (command_trace_get_nowait w) = Returned None ->
  _drain_command_trace (S n) texts actions w
  = (Returned (0, texts, actions), snd (command_trace_get_nowait w)).
Proof.
  intros H. unfold _drain_command_trace. simpl. unfold bindM.
  destruct (command_trace_get_nowait w) as [got w']. simpl in *. now subst.
Qed.

Lemma drain_agent_outputs_idle n texts w :
  fst (command_output_get_nowait w) = Returned None ->
  _drain_agent_outputs_and_respond (S n) texts w
  = (Returned (0, false, texts), snd (command_output_get_nowait w)).
Proof.
  intros H. unfold _drain_agent_outputs_and_respond. simpl. unfold bindM.
  destruct (command_output_get_nowait w) as [got w']. simpl in *. now subst.
Qed.

(** With idle queues, the loop started with [idle] idle cycles counted and
    enough budget runs [S n] more iterations, where [idle + S n] is the idle
    limit, and stops there. *)
Lemma interaction_loop_idle :
  idle_queues ->
  forall n idle budget w,
    idle + S n = idle_limit -> S n <= budget ->
    interaction_loop budget (idle_state idle) w
    = (Returned (idle_state idle_limit), idle_rounds n w).
Proof.
  intros (Htrace & Hout & Hsleep).
  induction n as [|n IH]; intros idle budget w Hidle Hbudget;
    (destruct budget as [|budget]; [lia|]);
    cbn [interaction_loop]; unfold bindM at 1;
    rewrite (drain_command_trace_idle _ _ _ _ (Htrace w)); unfold bindM at 1;
    rewrite (drain_agent_outputs_idle _ _ _ (Hout _)); cbn -[idle_limit Nat.leb idle_rounds];
    change (snd (command_output_get_nowait (snd (command_trace_get_nowait w))))
      with (idle_poll w).
  - replace (S idle) with idle_limit by lia. rewrite Nat.leb_refl. reflexivity.
  - replace (idle_limit <=? S idle)%nat with false
      by (symmetry; apply Nat.leb_gt; lia).
    unfold bindM. specialize (Hsleep (idle_poll w)).
    destruct (sleep_ms 150 (idle_poll w)) as [slept w'] eqn:Hs. simpl in Hsleep. subst slept.
    fold (idle_state (S idle)).
    rewrite (IH (S idle) budget w') by lia.
    f_equal. unfold idle_rounds. rewrite Nat.iter_succ_r, Hs. reflexivity.
Qed.

(** C5, as the code has it.  When neither queue ever yields an item, the
    interaction loop of [solve] with a budget of at least 150 iterations (the
    default is 200) stops at the idle limit: it makes exactly 150 pollings of
    the two queues, with the 149 sleeps between them, and leaves no executed
    action and a step count of 0.  When the set-up before the loop and the
    reward computation after it return, [solve] returns those with the
    reward that [env.calculate_reward] gives. *)
Theorem solve_idle self task_index max_num_steps w obs w1 d0 w2 reward_res w3 :
  idle_queues ->
  (150 <= max_num_steps)%Z ->
  solve_setup self task_index w = (Returned obs, w1) ->
  env_data_load_func (idle_rounds 149 w1) = (Returned d0, w2) ->
  env_calculate_reward w2 = (Returned reward_res, w3) ->
  interaction_loop (Z.to_nat max_num_steps) initial_loop_state w1
  = (Returned {| actions_executed := [];
                 aggregated_response_texts := [];
                 steps_taken := 0;
                 done := false;
                 idle_cycles := 150 |},
     idle_rounds 149 w1) /\
  solve self task_index max_num_steps w
  = (Returned {| reward := rr_reward reward_res;
                 messages := [("system", wiki self); ("user", obs)];
                 info := [("task_index", py_int_opt task_index);
                          ("steps", VInt 0);
                          ("executed_actions", VList []);
                          ("reward_info",
                           match rr_model_dump reward_res with
                           | Some dump => dump
                           | None => VDict []
                           end)] |},
     w3).
Proof.
  intros Hidle Hmax Hsetup Hload Hreward.
  assert (Hloop : interaction_loop (Z.to_nat max_num_steps) initial_loop_state w1
                  = (Returned (idle_state idle_limit), idle_rounds 149 w1)).
  { apply (interaction_loop_idle Hidle 149 0); [reflexivity|]. lia. }
  split; [exact Hloop|].
  unfold solve, try_except, solve_try, bindM at 1. rewrite Hsetup.
  unfold bindM at 1. rewrite Hloop.
  unfold solve_result, bindM at 1. cbn [fst snd _json_deepcopy].
  unfold bindM at 1, _simulate_gt_data, bindM at 1. rewrite Hload.
  unfold bindM. rewrite Hreward. reflexivity.
Qed.

(** C6. [solve] returns a result from every world; when its [try] block
    raises, the result has reward 0.0, the system message alone, and the
    [str] of the exception under ["error"]. *)
Theorem solve_catches self task_index max_num_steps w :
  (exists r w', solve self task_index max_num_steps w = (Returned r, w')) /\
  (forall e w',
      solve_try self task_index max_num_steps w = (Raised e, w') ->
      exists r,
        solve self task_index max_num_steps w = (Returned r, w') /\
        reward r = 0%float /\
        messages r = [("system", wiki self)] /\
        info r = [("error", VStr (exc_str e))]).
Proof.
  unfold solve, try_except, ret. split.
  - destruct (solve_try self task_index max_num_steps w) as [[r|e] w']; eauto.
  - intros e w' Htry. rewrite Htry. eexists. split; [reflexivity|]. now repeat split.
Qed.

End AdapterProperties.

(** ** The example world *)

Lemma one_is_not_zero : 1%float <> 0%float.
Proof.
  intros H. apply (f_equal (fun x => PrimFloat.eqb x 0)) in H.
  vm_compute in H. discriminate H.
Qed.

Lemma quiet_queues : @idle_queues toy_world (toy_externals false []).
Proof. repeat split. Qed.

Lemma simulate_gt_data_replays_witness :
  @env_data_load_func toy_world (toy_externals true example_actions) quiet_world
  = (Returned example_data, quiet_world) /\
  @_simulate_gt_data toy_world (toy_externals true example_actions) quiet_world
  = (Returned example_data_replayed, quiet_world).
Proof.
  split; [reflexivity|].
  apply (proj2 (@simulate_gt_data_replays toy_world (toy_externals true example_actions)
                  quiet_world example_data quiet_world eq_refl)).
  change (@replayed toy_world (toy_externals true example_actions) quiet_world
            example_actions example_data example_data_replayed).
  unfold example_actions.
  apply replayed_terminal; [left; reflexivity|].
  apply replayed_no_tool; [reflexivity|].
  eapply replayed_invoked; [intros [H|[]]; discriminate H | reflexivity | ].
  eapply replayed_invoked; [intros [H|[]]; discriminate H | reflexivity | ].
  eapply replayed_invoked; [intros [H|[]]; discriminate H | reflexivity | ].
  exact (replayed_end _ _).
Defined.

(** The replay of the example actions, evaluated: the failing tool has left
    its mark and the cancellation after it has still been replayed. *)
Example simulate_gt_data_example :
  exists gt,
    @_simulate_gt_data toy_world (toy_externals true example_actions) quiet_world
    = (Returned gt, quiet_world) /\
    field gt "touched" = Some (VBool true) /\
    match reservation_at gt "4WQ150" with
    | Some r => field r "status"
    | None => None
    end = Some (VStr "cancelled").
Proof. eexists. repeat split. Qed.

Lemma solve_idle_witness :
  @interaction_loop toy_world (toy_externals false []) 200 initial_loop_state
     (toy_with_data quiet_world example_data)
  = (Returned {| actions_executed := [];
                 aggregated_response_texts := [];
                 steps_taken := 0;
                 done := false;
                 idle_cycles := 150 |},
     {| trace_queue := []; output_queue := [];
        trace_polls := 150; output_polls := 150; sleeps := 149;
        user_fails := false;
        data := example_data; expected_data := example_data |}) /\
  exists w',
    @solve toy_world (toy_externals false []) toy_adapter (Some 0%Z) 200 quiet_world
    = (Returned {| reward := 1%float;
                   messages := [("system", "airline agent policy");
                                ("user", "Cancel reservation 4WQ150.")];
                   info := [("task_index", VInt 0);
                            ("steps", VInt 0);
                            ("executed_actions", VList []);
                            ("reward_info", VDict [])] |},
       w').
Proof.
  destruct (@solve_idle toy_world (toy_externals false []) toy_adapter (Some 0%Z) 200
              quiet_world "Cancel reservation 4WQ150."
              (toy_with_data quiet_world example_data)
              example_data
              (@idle_rounds toy_world (toy_externals false []) 149
                 (toy_with_data quiet_world example_data))
              {| rr_reward := 1%float; rr_model_dump := None |}
              (@idle_rounds toy_world (toy_externals false []) 149
                 (toy_with_data quiet_world example_data))
              quiet_queues ltac:(lia) eq_refl eq_refl eq_refl) as [Hloop Hsolve].
  split; [exact Hloop|].
  eexists. exact Hsolve.
Defined.

(** An idle run need not score zero: in a world whose queues never yield
    anything and whose ground truth leaves the dataset as loaded, [solve]
    runs to its end without an executed action and returns the reward 1.0
    that the environment computes, not 0.0. *)
Lemma solve_idle_reward_not_zero :
  @idle_queues toy_world (toy_externals false []) /\
  exists r w',
    @solve toy_world (toy_externals false []) toy_adapter (Some 0%Z) 200 quiet_world
    = (Returned r, w') /\
    lookup (info r) "executed_actions" = Some (VList []) /\
    reward r <> 0%float.
Proof.
  split; [exact quiet_queues|].
  eexists. eexists. split; [vm_compute; reflexivity|].
  split; [reflexivity|]. exact one_is_not_zero.
Qed.

Lemma solve_catches_witness :
  exists r w',
    @solve toy_world (toy_externals true []) toy_adapter None 200 quiet_world
    = (Returned r, w') /\
    reward r = 0%float /\
    messages r = [("system", "airline agent policy")] /\
    info r = [("error", VStr "list indices must be integers or slices, not NoneType")].
Proof.
  destruct (proj2 (@solve_catches toy_world (toy_externals true []) toy_adapter None 200
                     quiet_world)
                  (Exc "TypeError" "list indices must be integers or slices, not NoneType")
                  quiet_world eq_refl) as (r & Hr & Hreward & Hmessages & Hinfo).
  exists r, quiet_world. auto.
Defined.

(** An exception from inside the interaction loop: the agent has asked a
    question, the user simulator fails in [env.step], and [solve] returns the
    zero-reward result with the failure's message. *)
Example solve_failing_user :
  fst (@solve toy_world (toy_externals true []) toy_adapter (Some 0%Z) 200 failing_user_world)
  = Returned {| reward := 0%float;
                messages := [("system", "airline agent policy")];
                info := [("error", VStr "rate limit exceeded")] |}.
Proof. reflexivity. Qed.

(* ================================================================== *)
(** * Part IV: further properties                                      *)
(* ================================================================== *)

(** ** CancelReservation.invoke: outcomes *)

Lemma extended_history_dict r h :
  extended_history r = Returned h -> exists d, r = VDict d.
Proof. unfold extended_history. destruct r; simpl; try discriminate. eauto. Qed.

Lemma extended_history_extends r h ph :
  extended_history r = Returned h ->
  payment_history r = Some ph ->
  exists rs, h = VList (ph ++ rs).
Proof.
  intros Hh Hph. apply payment_history_field in Hph.
  unfold extended_history in Hh. rewrite (field_getitem _ _ _ Hph) in Hh.
  simpl in Hh. destruct (mapM refund ph) as [rs|e]; simpl in Hh; [|discriminate].
  injection Hh as <-. eauto.
Qed.

(** The call as a function of the targeted reservation: without it, or when
    its history cannot be refunded, the dataset stays; otherwise the
    reservation is stored back with its new history and status. *)
Lemma invoke_dataset data rid :
  snd (invoke data rid)
  = match reservation_at data rid with
    | Some r =>
        match extended_history r with
        | Returned h =>
            with_reservation data rid
              (setitem (setitem r "payment_history" h) "status" (VStr "cancelled"))
        | Raised _ => data
        end
    | None => data
    end.
Proof.
  unfold invoke, reservation_at, with_reservation.
  destruct data as [| | | | |top]; try reflexivity. simpl.
  destruct (lookup top "reservations") as [reservations|]; [|reflexivity].
  destruct reservations as [| | | s | l | rs]; simpl; try reflexivity.
  - now destruct (is_substring rid s).
  - now destruct (existsb (is_str rid) l).
  - unfold has_key. destruct (lookup rs rid) as [r|]; [|reflexivity].
    now destruct (extended_history r).
Qed.

(** X1. Every call of [CancelReservation.invoke] ends in one of three ways:
    it raises and the dataset is as before; it returns the error string and
    the dataset is as before; or it returns the JSON object of the
    reservation now stored under the id, whose status is ["cancelled"].  A
    returned JSON text starts with a brace, so it never starts with the error
    marker. *)
Theorem invoke_outcomes data rid :
  (exists e, invoke data rid = (Raised e, data)) \/
  invoke data rid = (Returned "Error: reservation not found", data) \/
  (exists r',
      fst (invoke data rid) = Returned (json_dumps r') /\
      reservation_at (snd (invoke data rid)) rid = Some r' /\
      field r' "status" = Some (VStr "cancelled") /\
      is_prefix "{" (json_dumps r') = true /\
      is_prefix "Error:" (json_dumps r') = false).
Proof.
  unfold invoke.
  destruct (getitem data "reservations") as [reservations|e] eqn:Hres; [|left; eauto].
  destruct (contains reservations rid) as [[|]|e] eqn:Hin; [|right; left; reflexivity|left; eauto].
  destruct (getitem reservations rid) as [r|e] eqn:Hr; [|left; eauto].
  destruct (extended_history r) as [h|e] eqn:Hh; [|left; eauto].
  right. right.
  destruct (extended_history_dict _ _ Hh) as [d ->].
  destruct data as [| | | | |top]; try discriminate.
  destruct reservations as [| | | | |rs]; try discriminate.
  eexists. split; [reflexivity|]. simpl.
  unfold reservation_at. simpl. rewrite lookup_dict_set_same. simpl.
  rewrite !lookup_dict_set_same. repeat split.
Qed.

(** X2. The payment history of a reservation is only ever appended to: after
    any call, on any reservation id, every reservation that held a list of
    payments still holds a list that starts with them. *)
Theorem invoke_appends_only data rid rid' r ph :
  reservation_at data rid' = Some r ->
  payment_history r = Some ph ->
  exists r' rs,
    reservation_at (snd (invoke data rid)) rid' = Some r' /\
    payment_history r' = Some (ph ++ rs).
Proof.
  intros Hr Hph. rewrite invoke_dataset.
  assert (Hsame : exists r' rs, reservation_at data rid' = Some r' /\
                                payment_history r' = Some (ph ++ rs)).
  { exists r, []. now rewrite app_nil_r. }
  destruct (reservation_at data rid) as [r0|] eqn:Hr0; [|exact Hsame].
  destruct (extended_history r0) as [h|e] eqn:Hh; [|exact Hsame].
  destruct (String.eqb_spec rid' rid) as [->|Hne].
  - rewrite Hr in Hr0. injection Hr0 as <-.
    destruct (extended_history_extends _ _ _ Hh Hph) as (rs & ->).
    eexists. exists rs. split; [now apply reservation_at_with with (r := r)|].
    now apply (payment_history_cancelled r ph ph rs).
  - rewrite reservation_at_with_other by assumption. exact Hsame.
Qed.

Lemma invoke_appends_only_witness :
  exists r' rs,
    reservation_at (snd (invoke example_data "4WQ150")) "4WQ150" = Some r' /\
    payment_history r'
    = Some ([VDict [("payment_id", VStr "credit_card_1"); ("amount", VInt 100)]] ++ rs).
Proof.
  apply (invoke_appends_only example_data "4WQ150" "4WQ150" example_reservation
           [VDict [("payment_id", VStr "credit_card_1"); ("amount", VInt 100)]]);
    reflexivity.
Defined.

(** ** CancelReservation.invoke: two reservations *)

Lemma dict_set_comm (d : dict) k1 k2 v1 v2 :
  k1 <> k2 -> lookup d k1 <> None -> lookup d k2 <> None ->
  dict_set (dict_set d k1 v1) k2 v2 = dict_set (dict_set d k2 v2) k1 v1.
Proof.
  intros Hne. induction d as [|[k v] d IH]; simpl; [congruence|].
  destruct (String.eqb_spec k1 k) as [->|H1], (String.eqb_spec k2 k) as [->|H2];
    try congruence; simpl; intros Hk1 Hk2.
  - rewrite String.eqb_refl. now destruct (String.eqb_spec k2 k).
  - rewrite String.eqb_refl. now destruct (String.eqb_spec k1 k).
  - destruct (String.eqb_spec k1 k), (String.eqb_spec k2 k); try congruence.
    now rewrite IH.
Qed.

Lemma dict_set_twice (d : dict) k v v' : dict_set (dict_set d k v) k v' = dict_set d k v'.
Proof.
  induction d as [|[k0 v0] d IH]; simpl.
  - now rewrite String.eqb_refl.
  - destruct (String.eqb_spec k k0) as [->|Hk]; simpl.
    + now rewrite String.eqb_refl.
    + destruct (String.eqb_spec k k0); [congruence|]. now rewrite IH.
Qed.

Lemma with_reservation_comm data rid1 rid2 r1 r2 r1' r2' :
  rid1 <> rid2 ->
  reservation_at data rid1 = Some r1 ->
  reservation_at data rid2 = Some r2 ->
  with_reservation (with_reservation data rid1 r1') rid2 r2'
  = with_reservation (with_reservation data rid2 r2') rid1 r1'.
Proof.
  unfold reservation_at, with_reservation. intros Hne H1 H2.
  destruct (field data "reservations") as [reservations|] eqn:Hres; [|discriminate].
  destruct (field_is_dict _ _ _ Hres) as [top ->].
  destruct (field_is_dict _ _ _ H1) as [rs ->].
  simpl in *. rewrite !lookup_dict_set_same. simpl.
  rewrite !dict_set_twice.
  now rewrite (dict_set_comm rs rid1 rid2 r1' r2') by congruence.
Qed.

(** The returned text of a call, after a call on another reservation has
    stored [r1'] for it. *)
Lemma invoke_result_with_other data rid1 rid2 r1 r1' :
  rid1 <> rid2 ->
  reservation_at data rid1 = Some r1 ->
  fst (invoke (with_reservation data rid1 r1') rid2) = fst (invoke data rid2).
Proof.
  unfold reservation_at, with_reservation. intros Hne H1.
  destruct (field data "reservations") as [reservations|] eqn:Hres; [|discriminate].
  destruct (field_is_dict _ _ _ Hres) as [top ->].
  destruct (field_is_dict _ _ _ H1) as [rs ->].
  simpl in Hres. unfold invoke. simpl.
  rewrite lookup_dict_set_same, Hres. simpl. unfold has_key.
  rewrite lookup_dict_set_other by congruence.
  destruct (lookup rs rid2) as [r2|]; [|reflexivity].
  now destruct (extended_history r2).
Qed.

(** X3. Calls on two different reservation ids do not interfere: each
    returns what it would return on the original dataset, and the dataset
    after both calls is the same in either order. *)
Theorem invoke_commutes data rid1 rid2 :
  rid1 <> rid2 ->
  fst (invoke (snd (invoke data rid1)) rid2) = fst (invoke data rid2) /\
  snd (invoke (snd (invoke data rid1)) rid2) = snd (invoke (snd (invoke data rid2)) rid1).
Proof.
  intros Hne. split.
  - rewrite (invoke_dataset data rid1).
    destruct (reservation_at data rid1) as [r1|] eqn:H1; [|reflexivity].
    destruct (extended_history r1); [|reflexivity].
    now apply invoke_result_with_other with (r1 := r1).
  - rewrite (invoke_dataset (snd (invoke data rid1)) rid2),
            (invoke_dataset (snd (invoke data rid2)) rid1),
            (invoke_dataset data rid1), (invoke_dataset data rid2).
    destruct (reservation_at data rid1) as [r1|] eqn:H1;
      destruct (reservation_at data rid2) as [r2|] eqn:H2;
      try (destruct (extended_history r1) as [h1|e1] eqn:Hh1);
      try (destruct (extended_history r2) as [h2|e2] eqn:Hh2);
      rewrite ?reservation_at_with_other by congruence;
      rewrite ?H1, ?H2, ?Hh1, ?Hh2; try reflexivity.
    now apply with_reservation_comm with (r1 := r1) (r2 := r2).
Qed.

Lemma invoke_commutes_witness :
  fst (invoke (snd (invoke example_data "4WQ150")) "VAAOXJ")
  = fst (invoke example_data "VAAOXJ") /\
  snd (invoke (snd (invoke example_data "4WQ150")) "VAAOXJ")
  = snd (invoke (snd (invoke example_data "VAAOXJ")) "4WQ150").
Proof. apply (invoke_commutes example_data "4WQ150" "VAAOXJ"). discriminate. Defined.

(** ** _collect_diffs: records are kept, and reported under the path *)

Lemma is_prefix_refl s : is_prefix s s = true.
Proof. induction s; simpl; [reflexivity|]. now rewrite Ascii.eqb_refl. Qed.

Lemma is_prefix_append p s : is_prefix p (p ++ s) = true.
Proof. induction p; simpl; [reflexivity|]. now rewrite Ascii.eqb_refl. Qed.

Lemma is_prefix_trans p q s :
  is_prefix p q = true -> is_prefix q s = true -> is_prefix p s = true.
Proof.
  revert q s. induction p as [|a p IH]; intros q s; [reflexivity|].
  destruct q as [|b q]; [discriminate|]. destruct s as [|c s]; [discriminate|].
  simpl. intros H1 H2.
  apply andb_prop in H1 as [Hab Hpq]. apply andb_prop in H2 as [Hbc Hqs].
  apply Ascii.eqb_eq in Hab, Hbc. subst. rewrite Ascii.eqb_refl. simpl. eauto.
Qed.

Lemma key_path_prefix path k : is_prefix path (key_path path k) = true.
Proof. destruct path; [reflexivity|]. apply is_prefix_append. Qed.

Lemma index_path_prefix path i : is_prefix path (index_path path i) = true.
Proof. destruct path; [reflexivity|]. apply is_prefix_append. Qed.

Lemma reports_under_refl path diffs : reports_under path diffs diffs.
Proof. exists []. rewrite app_nil_r. split; [reflexivity|constructor]. Qed.

Lemma reports_under_one path diffs r :
  is_prefix path (diff_path r) = true -> reports_under path diffs (diffs ++ [r]).
Proof. intros H. exists [r]. split; [reflexivity|]. now constructor. Qed.

Lemma reports_under_trans p q diffs out1 out2 :
  reports_under p diffs out1 -> reports_under q out1 out2 -> is_prefix p q = true ->
  reports_under p diffs out2.
Proof.
  intros (r1 & -> & H1) (r2 & -> & H2) Hpq.
  exists (r1 ++ r2). rewrite app_assoc. split; [reflexivity|].
  apply Forall_app. split; [assumption|].
  eapply Forall_impl; [|exact H2]. simpl. intros r Hr.
  now apply is_prefix_trans with (q := q).
Qed.

Lemma keys_loop_reports sub g path limit :
  (forall k av compare, lookup sub k = Some (av, compare) -> reporting_under limit compare) ->
  forall ks diffs, reports_under path diffs (keys_loop sub g path limit ks diffs).
Proof.
  intros Hsub. induction ks as [|k ks IH]; intros diffs; simpl.
  - apply reports_under_refl.
  - destruct (full diffs limit); [apply reports_under_refl|].
    pose proof (key_path_prefix path k) as Hk.
    destruct (lookup sub k) as [[av compare]|] eqn:Hsubk; destruct (lookup g k) as [gv|].
    + eapply reports_under_trans; [|apply IH|apply is_prefix_refl].
      eapply reports_under_trans;
        [apply reports_under_refl|apply (Hsub _ _ _ Hsubk)|exact Hk].
    + eapply reports_under_trans; [|apply IH|apply is_prefix_refl].
      now apply reports_under_one.
    + eapply reports_under_trans; [|apply IH|apply is_prefix_refl].
      now apply reports_under_one.
    + apply IH.
Qed.

Lemma zip_loop_reports compare path limit a :
  Forall (fun av => reporting_under limit (compare av)) a ->
  forall g i diffs, reports_under path diffs (zip_loop compare path limit a g i diffs).
Proof.
  induction 1 as [|av a Hav _ IH]; intros g i diffs; simpl.
  - apply reports_under_refl.
  - destruct g as [|gv g]; [apply reports_under_refl|].
    destruct (full diffs limit); [apply reports_under_refl|].
    eapply reports_under_trans; [|apply IH|apply is_prefix_refl].
    eapply reports_under_trans;
      [apply reports_under_refl|apply Hav|apply index_path_prefix].
Qed.

Lemma collect_diffs_reporting agent limit : reporting_under limit (_collect_diffs agent).
Proof.
  induction agent as [| b | n | s | a IH | a IH] using value_nested_ind;
    intros gt path diffs; simpl;
    (destruct (full diffs limit) eqn:Hfull; [apply reports_under_refl|]);
    destruct gt; simpl;
    try (apply reports_under_one; apply is_prefix_refl);
    try apply reports_under_refl;
    try (match goal with |- context [if ?c then _ else _] => destruct c end;
         solve [apply reports_under_refl
               | apply reports_under_one; apply is_prefix_refl]).
  - destruct (length a =? length l)%nat.
    + now apply zip_loop_reports.
    + apply reports_under_trans
        with (q := path) (out1 := diffs ++ [LengthDiff path (length a) (length l)]);
        [apply reports_under_one; apply is_prefix_refl
        |now apply zip_loop_reports
        |apply is_prefix_refl].
  - apply keys_loop_reports. intros k av compare Hk.
    rewrite lookup_sub in Hk.
    destruct (lookup a k) as [v|] eqn:Hv; [|discriminate].
    injection Hk as <- <-.
    rewrite Forall_forall in IH. apply (IH (k, v)). now apply lookup_In.
Qed.

(** X4. [_collect_diffs] never drops or rewrites a record it is given, and
    every record it appends reports a path that starts with the path of the
    call. *)
Theorem collect_diffs_reports_under agent gt path diffs limit :
  exists rest,
    _collect_diffs agent gt path diffs limit = diffs ++ rest /\
    Forall (fun r => is_prefix path (diff_path r) = true) rest.
Proof. apply collect_diffs_reporting. Qed.

(** ** _collect_diffs: an empty diff means the same structure *)

Lemma app_unchanged {A} (l r : list A) : l ++ r = l -> r = [].
Proof.
  intros H. apply (app_inv_head l). now rewrite app_nil_r.
Qed.

Lemma app_app_unchanged {A} (l r1 r2 : list A) :
  (l ++ r1) ++ r2 = l -> r1 = [] /\ r2 = [].
Proof.
  rewrite <- app_assoc. intros H. apply app_unchanged in H. now apply app_eq_nil in H.
Qed.

Lemma collect_diffs_extends agent gt path diffs limit :
  exists rest, _collect_diffs agent gt path diffs limit = diffs ++ rest.
Proof.
  destruct (collect_diffs_reporting agent limit gt path diffs) as (rest & H & _). eauto.
Qed.

Lemma zip_loop_extends path limit a g i diffs :
  exists rest, zip_loop _collect_diffs path limit a g i diffs = diffs ++ rest.
Proof.
  destruct (zip_loop_reports _collect_diffs path limit a
              (proj2 (Forall_forall _ a) (fun av _ => collect_diffs_reporting av limit))
              g i diffs) as (rest & H & _).
  eauto.
Qed.

Lemma keys_loop_extends d1 d2 path limit ks diffs :
  exists rest,
    keys_loop (bind_comparisons _collect_diffs d1) d2 path limit ks diffs = diffs ++ rest.
Proof.
  destruct (keys_loop_reports (bind_comparisons _collect_diffs d1) d2 path limit) with
    (ks := ks) (diffs := diffs) as (rest & H & _); [|eauto].
  intros k av compare Hk. rewrite lookup_sub in Hk.
  destruct (lookup d1 k); [|discriminate]. injection Hk as <- <-.
  apply collect_diffs_reporting.
Qed.

Lemma zip_loop_unchanged limit path a :
  Forall (faithful limit) a ->
  forall g i diffs,
    length a = length g ->
    full diffs limit = false ->
    zip_loop _collect_diffs path limit a g i diffs = diffs ->
    Forall2 same_structure a g.
Proof.
  induction 1 as [|av a Hav _ IH]; intros g i diffs Hlen Hfull Heq;
    destruct g as [|gv g]; try discriminate; [constructor|].
  simpl in Heq. rewrite Hfull in Heq.
  destruct (collect_diffs_extends av gv (index_path path i) diffs limit) as (r1 & H1).
  destruct (zip_loop_extends path limit a g (S i)
              (_collect_diffs av gv (index_path path i) diffs limit)) as (r2 & H2).
  rewrite H2, H1 in Heq. apply app_app_unchanged in Heq as [-> ->].
  rewrite app_nil_r in H1, H2. rewrite H1 in H2.
  constructor; [now apply (Hav gv (index_path path i) diffs)|].
  apply (IH g (S i) diffs); auto.
Qed.

Lemma keys_loop_unchanged limit path d1 d2 :
  (forall k a, lookup d1 k = Some a -> faithful limit a) ->
  forall ks diffs,
    full diffs limit = false ->
    keys_loop (bind_comparisons _collect_diffs d1) d2 path limit ks diffs = diffs ->
    forall k, In k ks ->
              match lookup d1 k, lookup d2 k with
              | Some a, Some g => same_structure a g
              | None, None => True
              | _, _ => False
              end.
Proof.
  intros Hd1. induction ks as [|k0 ks IH]; intros diffs Hfull Heq k Hin; [destruct Hin|].
  simpl in Heq. rewrite Hfull, lookup_sub in Heq.
  assert (Hone : forall r rest, (diffs ++ [r]) ++ rest <> diffs).
  { intros r rest H. apply app_app_unchanged in H as [H _]. discriminate. }
  destruct (lookup d1 k0) as [a0|] eqn:Ha0; destruct (lookup d2 k0) as [g0|] eqn:Hg0;
    simpl in Heq.
  - destruct (collect_diffs_extends a0 g0 (key_path path k0) diffs limit) as (r1 & H1).
    destruct (keys_loop_extends d1 d2 path limit ks
                (_collect_diffs a0 g0 (key_path path k0) diffs limit)) as (r2 & H2).
    rewrite H2, H1 in Heq. apply app_app_unchanged in Heq as [-> ->].
    rewrite app_nil_r in H1, H2. rewrite H1 in H2.
    destruct Hin as [<-|Hin].
    + rewrite Ha0, Hg0. now apply (Hd1 k0 a0 Ha0 g0 (key_path path k0) diffs).
    + now apply (IH diffs).
  - destruct (keys_loop_extends d1 d2 path limit ks
                (diffs ++ [ValueDiff (key_path path k0) (py_str a0) "<missing>"]))
      as (r2 & H2).
    rewrite H2 in Heq. now apply Hone in Heq.
  - destruct (keys_loop_extends d1 d2 path limit ks
                (diffs ++ [ValueDiff (key_path path k0) "<missing>" (py_str g0)]))
      as (r2 & H2).
    rewrite H2 in Heq. now apply Hone in Heq.
  - destruct Hin as [<-|Hin].
    + now rewrite Ha0, Hg0.
    + now apply (IH diffs).
Qed.

Lemma collect_diffs_faithful limit agent : faithful limit agent.
Proof.
  induction agent as [| b | n | s | a IH | a IH] using value_nested_ind;
    intros gt path diffs Hfull Heq; simpl in Heq; rewrite Hfull in Heq;
    assert (Hone : forall r, diffs ++ [r] <> diffs)
      by (intros r H; apply app_unchanged in H; discriminate).
  - destruct gt; simpl in Heq; try (now apply Hone in Heq). constructor.
  - destruct gt; simpl in Heq; try (now apply Hone in Heq).
    destruct (Bool.eqb_spec b b0) as [->|]; [constructor|now apply Hone in Heq].
  - destruct gt; simpl in Heq; try (now apply Hone in Heq).
    destruct (Z.eqb_spec n n0) as [->|]; [constructor|now apply Hone in Heq].
  - destruct gt; simpl in Heq; try (now apply Hone in Heq).
    destruct (String.eqb_spec s s0) as [->|]; [constructor|now apply Hone in Heq].
  - destruct gt as [| | | | g |]; simpl in Heq; try (now apply Hone in Heq).
    constructor.
    destruct (Nat.eqb_spec (length a) (length g)) as [Hlen|Hlen].
    + now apply (zip_loop_unchanged limit path a IH g 0 diffs).
    + destruct (zip_loop_extends path limit a g 0
                  (diffs ++ [LengthDiff path (length a) (length g)])) as (r2 & H2).
      rewrite H2 in Heq. apply app_app_unchanged in Heq as [Heq _]. discriminate.
  - destruct gt as [| | | | |g]; simpl in Heq; try (now apply Hone in Heq).
    assert (Hkeys := keys_loop_unchanged limit path a g
                       (fun k v Hv => proj1 (Forall_forall _ a) IH (k, v) (lookup_In _ _ _ Hv))
                       _ diffs Hfull Heq).
    constructor.
    + intros k. split; intros Hnone.
      * destruct (lookup g k) as [v|] eqn:Hg; [|reflexivity].
        specialize (Hkeys k (proj2 (sorted_union_keys_in a g k)
                                   (or_intror (lookup_keys _ _ _ Hg)))).
        now rewrite Hnone, Hg in Hkeys.
      * destruct (lookup a k) as [v|] eqn:Ha; [|reflexivity].
        specialize (Hkeys k (proj2 (sorted_union_keys_in a g k)
                                   (or_introl (lookup_keys _ _ _ Ha)))).
        now rewrite Ha, Hnone in Hkeys.
    + intros k v v' Ha Hg.
      specialize (Hkeys k (proj2 (sorted_union_keys_in a g k)
                                 (or_introl (lookup_keys _ _ _ Ha)))).
      now rewrite Ha, Hg in Hkeys.
Qed.

(** X5. With a positive limit, the diff of two values from an empty list is
    empty exactly when they have the same structure: equal leaves, lists
    equal element by element, dictionaries that bind the same keys to such
    values. *)
Theorem collect_diffs_empty_iff agent gt path limit :
  (0 < limit)%Z ->
  _collect_diffs agent gt path [] limit = [] <-> same_structure agent gt.
Proof.
  intros Hlimit.
  assert (Hfull : full [] limit = false) by (apply Z.leb_gt; exact Hlimit).
  split.
  - now apply collect_diffs_faithful.
  - intros H. now apply collect_diffs_same_structure.
Qed.

Lemma collect_diffs_empty_iff_witness :
  _collect_diffs example_data example_data_cancelled_status "data" [] 50 = [] <->
  same_structure example_data example_data_cancelled_status.
Proof. apply (collect_diffs_empty_iff _ _ "data" 50). reflexivity. Defined.

(** ** _collect_diffs: a key bound on one side only *)

(** X6. When two dictionaries have the same structure except for one key
    that only one of them binds, the comparison appends exactly one record,
    at that key's path, with ["<missing>"] on the side that lacks the key and
    the [str] of the value on the other. *)
Theorem collect_diffs_missing_key d1 d2 k v path diffs limit :
  full diffs limit = false ->
  (forall k', k' <> k -> lookup d1 k' = None <-> lookup d2 k' = None) ->
  (forall k' a' g', k' <> k -> lookup d1 k' = Some a' -> lookup d2 k' = Some g' ->
                    same_structure a' g') ->
  (lookup d1 k = None -> lookup d2 k = Some v ->
   _collect_diffs (VDict d1) (VDict d2) path diffs limit
   = diffs ++ [ValueDiff (key_path path k) "<missing>" (py_str v)]) /\
  (lookup d1 k = Some v -> lookup d2 k = None ->
   _collect_diffs (VDict d1) (VDict d2) path diffs limit
   = diffs ++ [ValueDiff (key_path path k) (py_str v) "<missing>"]).
Proof.
  intros Hfull Hnone Hsome.
  assert (Hloop :
            forall r,
              (forall ks diffs',
                  full diffs' limit = false ->
                  keys_loop (bind_comparisons _collect_diffs d1) d2 path limit (k :: ks) diffs'
                  = keys_loop (bind_comparisons _collect_diffs d1) d2 path limit ks
                      (diffs' ++ [r])) ->
              forall ks, NoDup ks -> In k ks ->
                         forall diffs',
                           full diffs' limit = false ->
                           keys_loop (bind_comparisons _collect_diffs d1) d2 path limit ks diffs'
                           = diffs' ++ [r]).
  { intros r Hstep. induction 1 as [|k0 ks Hnotin Hnodup IH]; intros Hin diffs' Hfull';
      [destruct Hin|].
    destruct (String.eqb_spec k0 k) as [->|Hk0].
    - rewrite Hstep by assumption.
      now apply (keys_loop_other d1 d2 k path limit Hnone Hsome).
    - destruct Hin as [Heq|Hin]; [congruence|].
      rewrite (other_key_skipped d1 d2 k path limit Hnone Hsome) by assumption.
      now apply IH. }
  split; intros Hd1 Hd2; simpl; rewrite Hfull.
  - apply Hloop.
    + intros ks diffs' Hfull'. simpl. now rewrite Hfull', lookup_sub, Hd1, Hd2.
    + apply sorted_union_keys_nodup.
    + apply sorted_union_keys_in. right. exact (lookup_keys _ _ _ Hd2).
    + exact Hfull.
  - apply Hloop.
    + intros ks diffs' Hfull'. simpl. now rewrite Hfull', lookup_sub, Hd1, Hd2.
    + apply sorted_union_keys_nodup.
    + apply sorted_union_keys_in. left. exact (lookup_keys _ _ _ Hd1).
    + exact Hfull.
Qed.

Lemma collect_diffs_missing_key_witness :
  _collect_diffs (VDict [("users", VDict [])])
                 (VDict [("flights", VList [VInt 1]); ("users", VDict [])])
                 EmptyString [] 50
  = [] ++ [ValueDiff "flights" "<missing>" "[1]"].
Proof.
  refine (proj1 (collect_diffs_missing_key
                   [("users", VDict [])]
                   [("flights", VList [VInt 1]); ("users", VDict [])]
                   "flights" (VList [VInt 1]) EmptyString [] 50 eq_refl _ _)
                eq_refl eq_refl).
  - intros k' Hk'. key_cases; split; congruence.
  - intros k' a' g' Hk'. key_cases; intros Ha Hg; try discriminate; try congruence.
    injection Ha as <-. injection Hg as <-. solve_same.
Defined.

(** ** _collect_diffs: the order of a dictionary's bindings does not matter *)

Lemma leb_trans a b c :
  String.leb a b = true -> String.leb b c = true -> String.leb a c = true.
Proof.
  unfold String.leb. intros Hab Hbc.
  destruct (String.compare a b) eqn:Eab; try discriminate;
    destruct (String.compare b c) eqn:Ebc; try discriminate.
  - apply String.compare_eq_iff in Eab. subst. now rewrite Ebc.
  - apply String.compare_eq_iff in Eab. subst. now rewrite Ebc.
  - apply String.compare_eq_iff in Ebc. subst. now rewrite Eab.
  - apply OrderedTypeEx.String_as_OT.cmp_lt in Eab, Ebc.
    pose proof (OrderedTypeEx.String_as_OT.lt_trans _ _ _ Eab Ebc) as Hac.
    apply OrderedTypeEx.String_as_OT.cmp_lt in Hac.
    unfold OrderedTypeEx.String_as_OT.cmp in Hac. now rewrite Hac.
Qed.

(** Two ascending lists with the same elements are the same list. *)
Lemma sorted_unique l1 :
  forall l2,
    Sorted (fun a b => String.leb a b = true) l1 ->
    Sorted (fun a b => String.leb a b = true) l2 ->
    Permutation l1 l2 ->
    l1 = l2.
Proof.
  assert (Htrans : Relations_1.Transitive (fun a b => String.leb a b = true))
    by (intros a b c; apply leb_trans).
  induction l1 as [|x l1 IH]; intros l2 H1 H2 Hperm.
  - now apply Permutation_nil in Hperm.
  - destruct l2 as [|y l2]; [now apply Permutation_sym, Permutation_nil in Hperm|].
    apply (Sorted_StronglySorted Htrans) in H1, H2.
    apply StronglySorted_inv in H1 as [H1 Hx]. apply StronglySorted_inv in H2 as [H2 Hy].
    assert (Hxy : x = y).
    { assert (Hin1 : In x (y :: l2)) by (apply (Permutation_in _ Hperm); now left).
      assert (Hin2 : In y (x :: l1))
        by (apply (Permutation_in _ (Permutation_sym Hperm)); now left).
      destruct Hin1 as [->|Hin1]; [reflexivity|].
      destruct Hin2 as [->|Hin2]; [reflexivity|].
      rewrite Forall_forall in Hx, Hy.
      apply String.leb_antisym; auto. }
    subst y. f_equal. apply Permutation_cons_inv in Hperm.
    apply IH; auto using StronglySorted_Sorted.
Qed.

Lemma in_keys_iff (d : dict) k : In k (keys d) <-> lookup d k <> None.
Proof.
  split.
  - intros H. apply keys_lookup in H as [v Hv]. congruence.
  - destruct (lookup d k) as [v|] eqn:Hv; [|congruence].
    intros _. exact (lookup_keys _ _ _ Hv).
Qed.

Lemma sorted_union_keys_ext a a' g g' :
  (forall k, lookup a k = lookup a' k) ->
  (forall k, lookup g k = lookup g' k) ->
  sorted (union_keys a g) = sorted (union_keys a' g').
Proof.
  intros Ha Hg. apply sorted_unique; try apply sorted_sorted.
  apply NoDup_Permutation; try apply sorted_union_keys_nodup.
  intros k. rewrite !sorted_union_keys_in, !in_keys_iff, Ha, Hg. reflexivity.
Qed.

Lemma keys_loop_ext {sub sub' : list (string * (value * comparison))} {g g' : dict} path limit :
  (forall k, lookup sub k = lookup sub' k) ->
  (forall k, lookup g k = lookup g' k) ->
  forall ks diffs,
    keys_loop sub g path limit ks diffs = keys_loop sub' g' path limit ks diffs.
Proof.
  intros Hsub Hg. induction ks as [|k ks IH]; intros diffs; simpl; [reflexivity|].
  rewrite Hsub, Hg.
  destruct (full diffs limit); [reflexivity|].
  destruct (lookup sub' k) as [[av compare]|]; destruct (lookup g' k); apply IH.
Qed.

(** X7. The comparison of two dictionaries depends on each of them only
    through what its keys are bound to: two dictionaries with the same
    bindings in another order give the same records, in the same order. *)
Theorem collect_diffs_binding_order a a' g g' path diffs limit :
  (forall k, lookup a k = lookup a' k) ->
  (forall k, lookup g k = lookup g' k) ->
  _collect_diffs (VDict a) (VDict g) path diffs limit
  = _collect_diffs (VDict a') (VDict g') path diffs limit.
Proof.
  intros Ha Hg. simpl. destruct (full diffs limit); [reflexivity|].
  rewrite (sorted_union_keys_ext a a' g g' Ha Hg).
  apply keys_loop_ext; [|exact Hg].
  intros k. now rewrite !lookup_sub, Ha.
Qed.

Lemma collect_diffs_binding_order_witness :
  _collect_diffs (VDict [("b", VInt 1); ("a", VStr "x")])
                 (VDict [("c", VNone); ("a", VStr "y")]) "p" [] 50
  = _collect_diffs (VDict [("a", VStr "x"); ("b", VInt 1)])
                   (VDict [("a", VStr "y"); ("c", VNone)]) "p" [] 50.
Proof.
  apply (collect_diffs_binding_order
           [("b", VInt 1); ("a", VStr "x")] [("a", VStr "x"); ("b", VInt 1)]
           [("c", VNone); ("a", VStr "y")] [("a", VStr "y"); ("c", VNone)]
           "p" [] 50);
    intros k; key_cases; reflexivity.
Defined.

(** ** _collect_diffs: the cap cuts the diff and does nothing else *)

Lemma full_iff diffs limit : full diffs limit = true <-> Z.to_nat limit <= length diffs.
Proof. unfold full. rewrite Z.leb_le. lia. Qed.

Lemma full_false_iff diffs limit : full diffs limit = false <-> length diffs < Z.to_nat limit.
Proof. unfold full. rewrite Z.leb_gt. lia. Qed.

Lemma firstn_app_exact {A} (l r : list A) : firstn (length l) (l ++ r) = l.
Proof. rewrite firstn_app, Nat.sub_diag, firstn_all. simpl. apply app_nil_r. Qed.

Lemma truncated_full n d r : n <= length d -> truncated n d d (d ++ r).
Proof.
  intros H. split; [|eauto]. rewrite Nat.max_l by exact H. now rewrite firstn_app_exact.
Qed.

Lemma truncated_same n d r :
  length (d ++ r) <= Nat.max (length d) n -> truncated n d (d ++ r) (d ++ r).
Proof. intros H. split; [|eauto]. now rewrite firstn_all2. Qed.

Lemma truncated_one n d x : length d < n -> truncated n d (d ++ [x]) (d ++ [x]).
Proof. intros H. apply truncated_same. rewrite length_app. simpl. lia. Qed.

(** A cut step after a cut outcome is a cut outcome. *)
Lemma truncated_then n d s1 t1 small large :
  truncated n d s1 t1 -> cut_of n small large -> truncated n d (small s1) (large t1).
Proof.
  intros [Hs1 (r1 & Ht1)] [Hfull Hcut].
  destruct (Hcut t1) as [Hs (r2 & Ht)].
  split; [|exists (r1 ++ r2); rewrite Ht, Ht1; now rewrite app_assoc].
  destruct (Nat.le_gt_cases (length t1) (Nat.max (length d) n)) as [Hle|Hgt].
  - rewrite firstn_all2 in Hs1 by exact Hle. subst s1. rewrite Hs. f_equal.
    rewrite Ht1, length_app in *. lia.
  - rewrite Hfull by (subst s1; rewrite length_firstn; lia).
    rewrite Ht, firstn_app. replace (Nat.max (length d) n - length t1) with 0 by lia.
    simpl. now rewrite app_nil_r.
Qed.

Lemma truncated_refl n d : truncated n d d d.
Proof.
  split; [|exists []; now rewrite app_nil_r]. rewrite firstn_all2; [reflexivity|lia].
Qed.

Lemma full_monotone d limit limit' :
  (limit <= limit')%Z -> full d limit = false -> full d limit' = false.
Proof. unfold full. rewrite !Z.leb_gt. lia. Qed.

Lemma cut_of_keys_loop limit limit' d1 d2 path ks :
  (limit <= limit')%Z ->
  (forall k a g p, lookup d1 k = Some a ->
                   cut_of (Z.to_nat limit) (fun d => _collect_diffs a g p d limit)
                                           (fun d => _collect_diffs a g p d limit')) ->
  cut_of (Z.to_nat limit)
         (keys_loop (bind_comparisons _collect_diffs d1) d2 path limit ks)
         (keys_loop (bind_comparisons _collect_diffs d1) d2 path limit' ks).
Proof.
  intros Hle Hd1. induction ks as [|k ks IH].
  - split; [reflexivity|]. intros d. apply truncated_refl.
  - split.
    + intros d Hd. apply full_iff in Hd. simpl. now rewrite Hd.
    + intros d. destruct (full d limit) eqn:Hfull.
      * destruct (keys_loop_extends d1 d2 path limit' (k :: ks) d) as (r & Hr).
        rewrite Hr. simpl. rewrite Hfull. apply truncated_full. now apply full_iff.
      * pose proof (proj1 (full_false_iff _ _) Hfull) as Hlen.
        simpl. rewrite Hfull, (full_monotone d limit limit' Hle Hfull), lookup_sub.
        destruct (lookup d1 k) as [a|] eqn:Ha; destruct (lookup d2 k) as [g|]; simpl.
        -- apply truncated_then with (small := keys_loop _ d2 path limit ks)
                                     (large := keys_loop _ d2 path limit' ks);
             [|exact IH].
           exact (proj2 (Hd1 k a g (key_path path k) Ha) d).
        -- apply truncated_then with (small := keys_loop _ d2 path limit ks)
                                     (large := keys_loop _ d2 path limit' ks);
             [|exact IH].
           now apply truncated_one.
        -- apply truncated_then with (small := keys_loop _ d2 path limit ks)
                                     (large := keys_loop _ d2 path limit' ks);
             [|exact IH].
           now apply truncated_one.
        -- exact (proj2 IH d).
Qed.

Lemma cut_of_zip_loop limit limit' path a :
  (limit <= limit')%Z ->
  Forall (fun av => forall gv p,
              cut_of (Z.to_nat limit) (fun d => _collect_diffs av gv p d limit)
                                      (fun d => _collect_diffs av gv p d limit')) a ->
  forall g i,
    cut_of (Z.to_nat limit)
           (zip_loop _collect_diffs path limit a g i)
           (zip_loop _collect_diffs path limit' a g i).
Proof.
  intros Hle. induction 1 as [|av a Hav _ IH]; intros g i.
  - split; [reflexivity|]. intros d. apply truncated_refl.
  - destruct g as [|gv g].
    { split; [reflexivity|]. intros d. apply truncated_refl. }
    split.
    + intros d Hd. apply full_iff in Hd. simpl. now rewrite Hd.
    + intros d. destruct (full d limit) eqn:Hfull.
      * destruct (zip_loop_extends path limit' (av :: a) (gv :: g) i d) as (r & Hr).
        rewrite Hr. simpl. rewrite Hfull. apply truncated_full. now apply full_iff.
      * simpl. rewrite Hfull, (full_monotone d limit limit' Hle Hfull).
        apply truncated_then with (small := zip_loop _collect_diffs path limit a g (S i))
                                  (large := zip_loop _collect_diffs path limit' a g (S i));
          [|apply IH].
        exact (proj2 (Hav gv (index_path path i)) d).
Qed.

Lemma cut_of_collect_diffs limit limit' agent :
  (limit <= limit')%Z ->
  forall gt path,
    cut_of (Z.to_nat limit) (fun d => _collect_diffs agent gt path d limit)
                            (fun d => _collect_diffs agent gt path d limit').
Proof.
  intros Hle.
  induction agent as [| b | n | s | a IH | a IH] using value_nested_ind;
    intros gt path; (split; [intros d Hd; apply full_iff in Hd; simpl; now rewrite Hd|]);
    intros d; cbv beta;
    match goal with
    | |- truncated _ _ _ (_collect_diffs ?agent _ _ _ _) =>
        destruct (collect_diffs_extends agent gt path d limit') as (r & Hr)
    end;
    (destruct (full d limit) eqn:Hfull;
     [rewrite Hr; simpl; rewrite Hfull; apply truncated_full; now apply full_iff|]);
    clear r Hr;
    pose proof (proj1 (full_false_iff _ _) Hfull) as Hlen;
    simpl; rewrite Hfull, (full_monotone d limit limit' Hle Hfull);
    destruct gt; simpl;
    try (now apply truncated_one); try apply truncated_refl;
    try (match goal with |- context [if ?c then _ else _] => destruct c end;
         solve [apply truncated_refl | now apply truncated_one]).
  - destruct (length a =? length l)%nat.
    + exact (proj2 (cut_of_zip_loop limit limit' path a Hle IH l 0) d).
    + apply truncated_then with (small := zip_loop _collect_diffs path limit a l 0)
                                (large := zip_loop _collect_diffs path limit' a l 0);
        [now apply truncated_one|now apply cut_of_zip_loop].
  - refine (proj2 (cut_of_keys_loop limit limit' a d0 path _ Hle _) d).
    intros k v g p Hv. rewrite Forall_forall in IH.
    exact (IH (k, v) (lookup_In _ _ _ Hv) g p).
Qed.

(** X15. The cap only cuts the diff: under a limit, [_collect_diffs] leaves
    exactly the first [max(len(diffs), limit)] records of what it leaves
    under any higher limit; from an empty list, the first [limit] records. *)
Theorem collect_diffs_cut agent gt path diffs limit limit' :
  (limit <= limit')%Z ->
  _collect_diffs agent gt path diffs limit
  = firstn (Nat.max (length diffs) (Z.to_nat limit))
           (_collect_diffs agent gt path diffs limit') /\
  _collect_diffs agent gt path [] limit
  = firstn (Z.to_nat limit) (_collect_diffs agent gt path [] limit').
Proof.
  intros Hle. split.
  - exact (proj1 (proj2 (cut_of_collect_diffs limit limit' agent Hle gt path) diffs)).
  - exact (proj1 (proj2 (cut_of_collect_diffs limit limit' agent Hle gt path) [])).
Qed.

Lemma collect_diffs_cut_witness :
  _collect_diffs example_data (snd (invoke example_data "4WQ150")) EmptyString [] 1
  = firstn (Nat.max 0 (Z.to_nat 1))
           (_collect_diffs example_data (snd (invoke example_data "4WQ150"))
                           EmptyString [] 50) /\
  _collect_diffs example_data (snd (invoke example_data "4WQ150")) EmptyString [] 1
  = firstn (Z.to_nat 1)
           (_collect_diffs example_data (snd (invoke example_data "4WQ150"))
                           EmptyString [] 50).
Proof.
  apply (collect_diffs_cut example_data (snd (invoke example_data "4WQ150"))
           EmptyString [] 1 50).
  lia.
Defined.

(** ** _collect_diffs: a value replaced by one of another type *)

(** X16. When two structures are the same except at one position, where the
    two values have different types, the comparison appends exactly one
    record: it has the path of that position and the [str] of the two whole
    values, whatever they hold; the comparison does not go into them. *)
Theorem collect_diffs_replaced route agent gt va vg path diffs limit :
  replaced_at route agent gt va vg ->
  full diffs limit = false ->
  _collect_diffs agent gt path diffs limit
  = diffs ++ [ValueDiff (fold_left extend_path route path) (py_str va) (py_str vg)].
Proof.
  intros H. revert path diffs.
  induction H as [va vg Htype
                 | k route d1 d2 a g va vg Hd1 Hd2 Hnone Hsome _ IH
                 | l1 l1' l2 l2' route a g va vg Hl1 Hl2 _ IH];
    intros path diffs Hfull.
  - destruct va; simpl; rewrite Hfull; destruct vg; try discriminate; reflexivity.
  - simpl. rewrite Hfull.
    apply (keys_loop_one d1 d2 k a g path limit _ Hd1 Hd2 Hnone Hsome
             (fun diffs' H' => IH (key_path path k) diffs' H')).
    + apply sorted_union_keys_nodup.
    + apply sorted_union_keys_in. left. exact (lookup_keys _ _ _ Hd1).
    + exact Hfull.
  - cbn [_collect_diffs same_type negb]. rewrite Hfull.
    replace (length (l1 ++ a :: l2) =? length (l1' ++ g :: l2'))%nat with true
      by (symmetry; apply Nat.eqb_eq; rewrite !length_app; simpl;
          now rewrite (Forall2_length Hl1), (Forall2_length Hl2)).
    rewrite (zip_loop_common_prefix _ _ _ _ _ _ Hl1 _ _ Hfull), Nat.add_0_r.
    simpl. rewrite Hfull, IH by exact Hfull.
    now apply zip_loop_same_structure.
Qed.

Lemma collect_diffs_replaced_witness :
  _collect_diffs (VDict [("flights", VList [VInt 7; VList [VInt 1; VInt 2]])])
                 (VDict [("flights", VList [VInt 7; VDict [("a", VInt 1)]])])
                 "data" [] 50
  = [] ++ [ValueDiff "data.flights[1]" "[1, 2]" "{'a': 1}"].
Proof.
  apply (collect_diffs_replaced
           [Key "flights"; Index 1]
           (VDict [("flights", VList [VInt 7; VList [VInt 1; VInt 2]])])
           (VDict [("flights", VList [VInt 7; VDict [("a", VInt 1)]])])
           (VList [VInt 1; VInt 2]) (VDict [("a", VInt 1)]) "data" [] 50);
    [|reflexivity].
  eapply replaced_key;
    [ reflexivity | reflexivity
    | intros k Hk; key_cases; split; congruence
    | intros k a g Hk; key_cases; intros Ha Hg; try discriminate; congruence
    | ].
  apply (replaced_index [VInt 7] [VInt 7] [] []); repeat constructor.
Defined.

(** ** A cancellation seen by the diff *)

Lemma mapM_length {E A B} (f : A -> outcome E B) l bs :
  mapM f l = Returned bs -> length bs = length l.
Proof.
  revert bs. induction l as [|a l IH]; simpl; intros bs H.
  - now injection H as <-.
  - destruct (f a) as [b|e]; simpl in H; [|discriminate].
    destruct (mapM f l) as [bs'|e]; simpl in H; [|discriminate].
    injection H as <-. simpl. now rewrite (IH bs').
Qed.

(** A reservation whose history can be refunded holds a list of payments,
    and the new history is that list with as many refunds appended. *)
Lemma extended_history_list r h :
  extended_history r = Returned h ->
  exists ph rs,
    payment_history r = Some ph /\ h = VList (ph ++ rs) /\ length rs = length ph.
Proof.
  unfold extended_history, payment_history. intros H.
  destruct r as [| | | | |d]; simpl in *; try discriminate.
  destruct (lookup d "payment_history") as [history|]; simpl in H; [|discriminate].
  destruct history as [| | | s | ph | d0]; simpl in H; try discriminate.
  - destruct (mapM refund (chars s)); discriminate.
  - destruct (mapM refund ph) as [rs|e] eqn:Hrs; simpl in H; [|discriminate].
    injection H as <-. exists ph, rs. repeat split. exact (mapM_length _ _ _ Hrs).
  - destruct (mapM refund (map VStr (keys d0))); discriminate.
Qed.

Lemma same_structure_field v v' k x :
  same_structure v v' -> field v k = Some x ->
  exists x', field v' k = Some x' /\ same_structure x x'.
Proof.
  intros Hsame Hx. destruct (field_is_dict _ _ _ Hx) as [d ->].
  inversion Hsame as [| | | | |d1 d2 Hnone Hsome]; subst. simpl in *.
  destruct (lookup d2 k) as [x'|] eqn:Hx'.
  - exists x'. split; [reflexivity|]. exact (Hsome k x x' Hx Hx').
  - apply Hnone in Hx'. congruence.
Qed.

Lemma same_structure_field_back v v' k x' :
  same_structure v v' -> field v' k = Some x' ->
  exists x, field v k = Some x /\ same_structure x x'.
Proof.
  intros Hsame Hx'. destruct (field_is_dict _ _ _ Hx') as [d' ->].
  inversion Hsame as [| | | | |d1 d2 Hnone Hsome]; subst. simpl in *.
  destruct (lookup d1 k) as [x|] eqn:Hx.
  - exists x. split; [reflexivity|]. exact (Hsome k x x' Hx Hx').
  - apply Hnone in Hx. congruence.
Qed.

(** X17. For a positive limit, the diff between a dataset and the dataset
    that a call of [CancelReservation.invoke] leaves is empty exactly when
    the call left the dataset as it was: every cancellation that changes
    anything is seen. *)
Theorem collect_diffs_sees_cancellation data rid path limit :
  (0 < limit)%Z ->
  _collect_diffs data (snd (invoke data rid)) path [] limit = [] <->
  snd (invoke data rid) = data.
Proof.
  intros Hlimit.
  assert (Hfull : full [] limit = false) by (apply Z.leb_gt; exact Hlimit).
  split; [|intros ->; apply collect_diffs_same].
  intros Hdiff. apply (collect_diffs_faithful limit data _ path [] Hfull) in Hdiff.
  rewrite invoke_dataset in *.
  destruct (reservation_at data rid) as [r|] eqn:Hr; [|reflexivity].
  destruct (extended_history r) as [h|e] eqn:Hh; [|reflexivity].
  destruct (extended_history_list _ _ Hh) as (ph & rs & Hph & -> & Hlen).
  fold (cancelled r ph rs) in *.
  assert (Hr' : reservation_at (with_reservation data rid (cancelled r ph rs)) rid
                = Some (cancelled r ph rs))
    by now apply reservation_at_with with (r := r).
  assert (Hrr' : same_structure r (cancelled r ph rs)).
  { unfold reservation_at in Hr, Hr'.
    destruct (field data "reservations") as [reservations|] eqn:Hres; [|discriminate].
    destruct (same_structure_field _ _ _ _ Hdiff Hres) as (reservations' & Hres' & Hsame).
    rewrite Hres' in Hr'.
    destruct (same_structure_field _ _ _ _ Hsame Hr) as (r0 & Hr0 & Hsame').
    rewrite Hr0 in Hr'. now injection Hr' as ->. }
  assert (Hnil : rs = []).
  { destruct (same_structure_field _ _ _ _ Hrr' (payment_history_field _ _ Hph))
      as (h' & Hh' & Hsame).
    rewrite (payment_history_field _ _ (payment_history_cancelled r ph ph rs Hph)) in Hh'.
    injection Hh' as <-. inversion Hsame as [| | | |l1 l2 Hall|]; subst.
    apply Forall2_length in Hall. rewrite length_app in Hall.
    destruct rs; [reflexivity|simpl in *; lia]. }
  assert (Hstatus : field r "status" = Some (VStr "cancelled")).
  { destruct (same_structure_field_back _ _ _ _ Hrr' (status_cancelled r ph ph rs Hph))
      as (s & Hs & Hsame).
    inversion Hsame; subst. exact Hs. }
  assert (Heq : cancelled r ph rs = r).
  { unfold cancelled. subst rs. rewrite app_nil_r.
    apply payment_history_field in Hph.
    destruct (field_is_dict _ _ _ Hph) as [d ->]. simpl in *.
    now rewrite (dict_set_same_value d _ _ Hph), (dict_set_same_value d _ _ Hstatus). }
  rewrite Heq. now apply with_reservation_same.
Qed.

Lemma collect_diffs_sees_cancellation_witness :
  _collect_diffs example_data (snd (invoke example_data "ZZZZZZ")) "data" [] 50 = [] <->
  snd (invoke example_data "ZZZZZZ") = example_data.
Proof. apply (collect_diffs_sees_cancellation example_data "ZZZZZZ" "data" 50). reflexivity. Defined.

(** ** The adapter: the two drain loops *)

Section DrainProperties.
Context {W : Type} {X : Externals W}.

Lemma bindM_returned {A B} (m : M W A) (f : A -> M W B) w b w' :
  bindM m f w = (Returned b, w') ->
  exists a w1, m w = (Returned a, w1) /\ f a w1 = (Returned b, w').
Proof.
  unfold bindM. destruct (m w) as [[a|e] w1]; intros H; [eauto|discriminate].
Qed.

Lemma nonempty_str_some v s : nonempty_str v = Some s -> nonempty s = true.
Proof.
  destruct v; simpl; try discriminate.
  destruct (nonempty s0) eqn:E; [|discriminate]. now intros [= <-].
Qed.

(** The text a trace event contributes: none or one, not empty. *)
Lemma response_text_appended (texts : list string) v :
  exists new,
    match nonempty_str v with
    | Some txt => texts ++ [txt]
    | None => texts
    end = texts ++ new /\
    length new <= 1 /\ Forall (fun t => nonempty t = true) new.
Proof.
  destruct (nonempty_str v) as [txt|] eqn:E.
  - exists [txt]. repeat split; auto. constructor; [|constructor].
    exact (nonempty_str_some _ _ E).
  - exists []. rewrite app_nil_r. repeat split; auto.
Qed.

Lemma drain_trace_loop_bounds remaining :
  forall processed texts actions w k texts' actions' w',
    drain_trace_loop remaining processed texts actions w
    = (Returned (k, texts', actions'), w') ->
    exists j new_texts new_actions,
      k = processed + j /\ j <= remaining /\
      texts' = texts ++ new_texts /\ actions' = actions ++ new_actions /\
      length new_texts <= j /\ length new_actions <= j /\
      Forall (fun t => nonempty t = true) new_texts /\
      Forall recorded_action new_actions.
Proof.
  induction remaining as [|remaining IH];
    intros processed texts actions w k texts' actions' w' H; simpl in H.
  - injection H as <- <- <- _. exists 0, [], [].
    rewrite !app_nil_r, Nat.add_0_r. repeat split; auto.
  - apply bindM_returned in H as (got & w1 & _ & H).
    destruct got as [evt|].
    2:{ injection H as <- <- <- _. exists 0, [], [].
        rewrite !app_nil_r, Nat.add_0_r. repeat split; auto; lia. }
    destruct (is_agent_to_workflow evt).
    { apply IH in H as (j & nt & na & -> & Hj & -> & -> & Hnt & Hna & Ht & Ha).
      exists (S j), nt, na. repeat split; auto; lia. }
    destruct (response_text_appended texts (response_text evt)) as (t0 & Ht0 & Hlen0 & Hne0).
    rewrite Ht0 in H.
    destruct (nonempty_str (command_name evt)) as [cmd_name|] eqn:Hcmd.
    + apply bindM_returned in H as (res & w2 & _ & H).
      apply IH in H as (j & nt & na & -> & Hj & -> & -> & Hnt & Hna & Ht & Ha).
      exists (S j), (t0 ++ nt),
        (VDict [("name", VStr cmd_name);
                ("kwargs", VDict (_to_plain_kwargs (parameters evt)));
                ("response_text", response_text evt);
                ("success", success evt)] :: na).
      rewrite <- !app_assoc. simpl. rewrite length_app.
      repeat split; auto; try lia.
      * now apply Forall_app.
      * constructor; [|assumption].
        exists cmd_name, (_to_plain_kwargs (parameters evt)), (response_text evt), (success evt).
        split; [exact (nonempty_str_some _ _ Hcmd)|reflexivity].
    + apply IH in H as (j & nt & na & -> & Hj & -> & -> & Hnt & Hna & Ht & Ha).
      exists (S j), (t0 ++ nt), na.
      rewrite <- !app_assoc, length_app.
      repeat split; auto; try lia. now apply Forall_app.
Qed.

(** The drain of the trace queue, as the interaction loop uses it. *)
Lemma drain_command_trace_grows max_drain texts actions w k texts' actions' w' :
  _drain_command_trace max_drain texts actions w = (Returned (k, texts', actions'), w') ->
  exists new_texts new_actions,
    k <= max_drain /\
    texts' = texts ++ new_texts /\ actions' = actions ++ new_actions /\
    length new_texts <= k /\ length new_actions <= k /\
    Forall (fun t => nonempty t = true) new_texts /\
    Forall recorded_action new_actions.
Proof.
  intros H. apply drain_trace_loop_bounds in H
    as (j & nt & na & -> & Hj & -> & -> & Hnt & Hna & Ht & Ha).
  exists nt, na. repeat split; auto.
Qed.

(** X8. When [_drain_command_trace] returns, it has processed at most
    [max_drain] events; the two lists it was given are kept, with at most
    one non-empty text and at most one action appended per processed event;
    and every appended action is a dictionary with a non-empty [name], the
    [kwargs], the [response_text] and the [success] flag, in this order. *)
Theorem drain_command_trace_bounds max_drain texts actions w k texts' actions' w' :
  _drain_command_trace max_drain texts actions w = (Returned (k, texts', actions'), w') ->
  k <= max_drain /\
  exists new_texts new_actions,
    texts' = texts ++ new_texts /\ actions' = actions ++ new_actions /\
    length new_texts <= k /\ length new_actions <= k /\
    Forall (fun t => nonempty t = true) new_texts /\
    Forall recorded_action new_actions.
Proof.
  intros H. apply drain_trace_loop_bounds in H
    as (j & nt & na & -> & Hj & -> & -> & Hnt & Hna & Ht & Ha).
  split; [exact Hj|]. exists nt, na. repeat split; auto.
Qed.

Lemma drain_trace_loop_one_way remaining :
  (forall w evt, fst (command_trace_get_nowait w) = Returned (Some evt) ->
                 is_agent_to_workflow evt = true) ->
  forall processed texts actions w k texts' actions' w',
    drain_trace_loop remaining processed texts actions w
    = (Returned (k, texts', actions'), w') ->
    exists j,
      k = processed + j /\ j <= remaining /\
      texts' = texts /\ actions' = actions /\
      w' = after_trace_polls (polls_made remaining j) w.
Proof.
  intros Hdir. induction remaining as [|remaining IH];
    intros processed texts actions w k texts' actions' w' H; simpl in H.
  - injection H as <- <- <- <-. exists 0. rewrite Nat.add_0_r. repeat split; auto.
  - apply bindM_returned in H as (got & w1 & Hpoll & H).
    assert (Hw1 : w1 = snd (command_trace_get_nowait w)) by now rewrite Hpoll.
    destruct got as [evt|].
    2:{ injection H as <- <- <- <-. exists 0.
        rewrite Nat.add_0_r. repeat split; auto; lia. }
    rewrite (Hdir w evt) in H by now rewrite Hpoll.
    apply IH in H as (j & -> & Hj & -> & -> & ->).
    exists (S j). repeat split; auto; try lia.
    unfold polls_made. change (S j <? S remaining)%nat with (j <? remaining)%nat.
    unfold after_trace_polls. rewrite Hw1.
    destruct (j <? remaining)%nat; symmetry;
      apply (Nat.iter_succ_r _ _ (fun w0 => snd (command_trace_get_nowait w0)) w).
Qed.

(** X9. When every event the trace queue yields was sent by the agent to the
    workflow, [_drain_command_trace] counts the events and does nothing
    else: the two lists come back as they were, and the world has only seen
    the reads of the queue, so the environment was never stepped. *)
Theorem drain_command_trace_one_way max_drain texts actions w k texts' actions' w' :
  (forall w0 evt, fst (command_trace_get_nowait w0) = Returned (Some evt) ->
                  is_agent_to_workflow evt = true) ->
  _drain_command_trace max_drain texts actions w = (Returned (k, texts', actions'), w') ->
  k <= max_drain /\ texts' = texts /\ actions' = actions /\
  w' = after_trace_polls (polls_made max_drain k) w.
Proof.
  intros Hdir H.
  apply (drain_trace_loop_one_way max_drain Hdir) in H as (j & -> & Hj & -> & -> & ->).
  auto.
Qed.

Lemma stripped_nonempty v : Forall (fun t => nonempty t = true) (stripped v).
Proof.
  destruct v; simpl; try constructor.
  destruct (nonempty (strip s)) eqn:E; repeat constructor. exact E.
Qed.

Lemma agent_texts_nonempty out : Forall (fun t => nonempty t = true) (agent_texts_of out).
Proof.
  destruct out as [responses|s|]; simpl; try constructor.
  - induction responses as [|v responses IH]; simpl; [constructor|].
    apply Forall_app. split; [apply stripped_nonempty|exact IH].
  - apply (stripped_nonempty (VStr s)).
Qed.

Lemma concat_nonempty sep t ts :
  nonempty t = true -> nonempty (String.concat sep (t :: ts)) = true.
Proof.
  intros H. destruct t as [|c t]; [discriminate|]. now destruct ts.
Qed.

Lemma drain_outputs_loop_bounds remaining :
  forall processed texts w k finished texts' w',
    drain_outputs_loop remaining processed texts w = (Returned (k, finished, texts'), w') ->
    exists j new_texts,
      k = processed + j /\ j <= remaining /\
      texts' = texts ++ new_texts /\
      length new_texts <= 2 * j /\
      Forall (fun t => nonempty t = true) new_texts /\
      (finished = true -> 1 <= j).
Proof.
  induction remaining as [|remaining IH];
    intros processed texts w k finished texts' w' H; simpl in H.
  - injection H as <- <- <- _. exists 0, [].
    rewrite app_nil_r, Nat.add_0_r. repeat split; auto; discriminate.
  - apply bindM_returned in H as (got & w1 & _ & H).
    destruct got as [out|].
    2:{ injection H as <- <- <- _. exists 0, [].
        rewrite app_nil_r, Nat.add_0_r. repeat split; auto; try lia; discriminate. }
    pose proof (agent_texts_nonempty out) as Hout.
    destruct (agent_texts_of out) as [|t ts].
    { apply IH in H as (j & nt & -> & Hj & -> & Hnt & Ht & _).
      exists (S j), nt. repeat split; auto; lia. }
    assert (Htext : nonempty (String.concat newline (t :: ts)) = true)
      by (apply concat_nonempty; now inversion Hout).
    apply bindM_returned in H as (res & w2 & _ & H).
    apply bindM_returned in H as (texts2 & w3 & Hreply & H).
    assert (Htexts2 : exists t2, texts2 = texts ++ String.concat newline (t :: ts) :: t2 /\
                                 length t2 <= 1 /\
                                 Forall (fun t => nonempty t = true) t2).
    { destruct (nonempty_str (observation res)) as [user_reply|] eqn:Hobs.
      - apply bindM_returned in Hreply as (u & w4 & _ & Hreply).
        injection Hreply as <- _. exists [user_reply].
        rewrite <- app_assoc. repeat split; auto.
        constructor; [exact (nonempty_str_some _ _ Hobs)|constructor].
      - injection Hreply as <- _. exists []. repeat split; auto. }
    destruct Htexts2 as (t2 & -> & Hlen2 & Hne2).
    destruct (step_done res).
    + injection H as <- <- <- _. exists 1, (String.concat newline (t :: ts) :: t2).
      repeat split; auto; simpl; lia.
    + apply IH in H as (j & nt & -> & Hj & -> & Hnt & Ht & _).
      exists (S j), ((String.concat newline (t :: ts) :: t2) ++ nt).
      rewrite <- app_assoc, length_app. simpl.
      repeat split; auto; try lia.
      constructor; [assumption|]. now apply Forall_app.
Qed.

(** The drain of the output queue, as the interaction loop uses it. *)
Lemma drain_agent_outputs_grows max_drain texts w k finished texts' w' :
  _drain_agent_outputs_and_respond max_drain texts w = (Returned (k, finished, texts'), w') ->
  exists new_texts,
    k <= max_drain /\
    texts' = texts ++ new_texts /\
    length new_texts <= 2 * k /\
    Forall (fun t => nonempty t = true) new_texts.
Proof.
  intros H. apply drain_outputs_loop_bounds in H as (j & nt & -> & Hj & -> & Hnt & Ht & _).
  exists nt. auto.
Qed.

(** X10. When [_drain_agent_outputs_and_respond] returns, it has processed
    at most [max_drain] outputs; the list of texts it was given is kept, with
    at most two non-empty texts (the agent's text and the user's reply)
    appended per processed output; and it reports [done] only after
    processing an output. *)
Theorem drain_agent_outputs_bounds max_drain texts w k finished texts' w' :
  _drain_agent_outputs_and_respond max_drain texts w = (Returned (k, finished, texts'), w') ->
  k <= max_drain /\
  (finished = true -> 1 <= k) /\
  exists new_texts,
    texts' = texts ++ new_texts /\
    length new_texts <= 2 * k /\
    Forall (fun t => nonempty t = true) new_texts.
Proof.
  intros H. apply drain_outputs_loop_bounds in H as (j & nt & -> & Hj & -> & Hnt & Ht & Hd).
  split; [exact Hj|]. split; [exact Hd|]. exists nt. auto.
Qed.

Lemma drain_outputs_loop_blank remaining :
  (forall w out, fst (command_output_get_nowait w) = Returned (Some out) ->
                 agent_texts_of out = []) ->
  forall processed texts w k finished texts' w',
    drain_outputs_loop remaining processed texts w = (Returned (k, finished, texts'), w') ->
    exists j,
      k = processed + j /\ j <= remaining /\
      finished = false /\ texts' = texts /\
      w' = after_output_polls (polls_made remaining j) w.
Proof.
  intros Hblank. induction remaining as [|remaining IH];
    intros processed texts w k finished texts' w' H; simpl in H.
  - injection H as <- <- <- <-. exists 0. rewrite Nat.add_0_r. repeat split; auto.
  - apply bindM_returned in H as (got & w1 & Hpoll & H).
    assert (Hw1 : w1 = snd (command_output_get_nowait w)) by now rewrite Hpoll.
    destruct got as [out|].
    2:{ injection H as <- <- <- <-. exists 0.
        rewrite Nat.add_0_r. repeat split; auto; lia. }
    rewrite (Hblank w out) in H by now rewrite Hpoll.
    apply IH in H as (j & -> & Hj & -> & -> & ->).
    exists (S j). repeat split; auto; try lia.
    unfold polls_made. change (S j <? S remaining)%nat with (j <? remaining)%nat.
    unfold after_output_polls. rewrite Hw1.
    destruct (j <? remaining)%nat; symmetry;
      apply (Nat.iter_succ_r _ _ (fun w0 => snd (command_output_get_nowait w0)) w).
Qed.

(** X11. When every output the queue yields holds no text after stripping,
    [_drain_agent_outputs_and_respond] counts the outputs and does nothing
    else: it does not report [done], the list of texts comes back as it was,
    and the world has only seen the reads of the queue, so the user simulator
    was never asked. *)
Theorem drain_agent_outputs_blank max_drain texts w k finished texts' w' :
  (forall w0 out, fst (command_output_get_nowait w0) = Returned (Some out) ->
                  agent_texts_of out = []) ->
  _drain_agent_outputs_and_respond max_drain texts w = (Returned (k, finished, texts'), w') ->
  k <= max_drain /\ finished = false /\ texts' = texts /\
  w' = after_output_polls (polls_made max_drain k) w.
Proof.
  intros Hblank H.
  apply (drain_outputs_loop_blank max_drain Hblank) in H as (j & -> & Hj & -> & -> & ->).
  auto.
Qed.

End DrainProperties.

(** ** The adapter: the interaction loop and the result of solve *)

Section LoopProperties.
Context {W : Type} {X : Externals W}.

(** One iteration of the loop, as an equation. *)
Lemma interaction_loop_step budget st w :
  interaction_loop (S budget) st w
  = bindM (_drain_command_trace 200 (aggregated_response_texts st) (actions_executed st))
      (fun r1 =>
         let '(processed_trace, texts, actions) := r1 in
         bindM (_drain_agent_outputs_and_respond 200 texts)
           (fun r2 =>
              let '(processed_out, out_done, texts) := r2 in
              let progressed := processed_trace + processed_out in
              let st' := {|
                actions_executed := actions;
                aggregated_response_texts := texts;
                steps_taken := steps_taken st + progressed;
                done := if out_done then true else done st;
                idle_cycles := if (progressed =? 0)%nat then S (idle_cycles st) else 0
              |} in
              if done st' || (idle_limit <=? idle_cycles st')%nat then ret st'
              else bindM (sleep_ms 150) (fun _ => interaction_loop budget st'))) w.
Proof. reflexivity. Qed.

Lemma interaction_loop_grows budget :
  forall st w st' w',
    interaction_loop budget st w = (Returned st', w') ->
    exists new_actions new_texts,
      actions_executed st' = actions_executed st ++ new_actions /\
      aggregated_response_texts st' = aggregated_response_texts st ++ new_texts /\
      steps_taken st <= steps_taken st' /\
      steps_taken st' <= steps_taken st + 400 * budget /\
      length new_actions <= steps_taken st' - steps_taken st /\
      length new_actions <= 200 * budget /\
      Forall recorded_action new_actions /\
      Forall (fun t => nonempty t = true) new_texts /\
      (idle_cycles st < idle_limit -> idle_cycles st' <= idle_limit).
Proof.
  induction budget as [|budget IH]; intros st w st' w' H.
  - injection H as <- _. exists [], []. rewrite !app_nil_r.
    repeat split; auto; simpl; unfold idle_limit; lia.
  - rewrite interaction_loop_step in H.
    apply bindM_returned in H as ([[n1 t1] a1] & w1 & Htrace & H).
    apply bindM_returned in H as ([[n2 finished] t2] & w2 & Hout & H).
    apply drain_command_trace_grows in Htrace
      as (nt1 & na1 & Hn1 & -> & -> & Hnt1 & Hna1 & Hne1 & Hrec1).
    apply drain_agent_outputs_grows in Hout as (nt2 & Hn2 & -> & Hnt2 & Hne2).
    cbv zeta in H.
    remember {| actions_executed := actions_executed st ++ na1;
                aggregated_response_texts := (aggregated_response_texts st ++ nt1) ++ nt2;
                steps_taken := steps_taken st + (n1 + n2);
                done := if finished then true else done st;
                idle_cycles := if (n1 + n2 =? 0)%nat then S (idle_cycles st) else 0 |}
      as st1 eqn:Hst1.
    assert (Hhere :
              exists new_actions new_texts,
                actions_executed st1 = actions_executed st ++ new_actions /\
                aggregated_response_texts st1 = aggregated_response_texts st ++ new_texts /\
                steps_taken st <= steps_taken st1 /\
                steps_taken st1 <= steps_taken st + 400 /\
                length new_actions <= steps_taken st1 - steps_taken st /\
                length new_actions <= 200 /\
                Forall recorded_action new_actions /\
                Forall (fun t => nonempty t = true) new_texts).
    { exists na1, (nt1 ++ nt2). subst st1. simpl. rewrite app_assoc.
      repeat split; auto; try lia. now apply Forall_app. }
    assert (Hidle1 : idle_cycles st < idle_limit -> idle_cycles st1 <= idle_limit).
    { subst st1. simpl. unfold idle_limit. destruct (n1 + n2 =? 0)%nat; lia. }
    clear Hst1.
    destruct Hhere as (na & nt & Ha & Ht & Hs1 & Hs2 & Hl1 & Hl2 & Hrec & Hne).
    destruct (done st1 || (idle_limit <=? idle_cycles st1)%nat) eqn:Hstop.
    + injection H as <- _. exists na, nt.
      repeat split; auto; lia.
    + apply bindM_returned in H as (u & w3 & _ & H).
      apply IH in H as (na' & nt' & Ha' & Ht' & Hs1' & Hs2' & Hl1' & Hl2' & Hrec' & Hne' & Hidle').
      exists (na ++ na'), (nt ++ nt').
      rewrite Ha', Ht', Ha, Ht, <- !app_assoc, length_app.
      repeat split; auto; try lia; try (now apply Forall_app).
      intros _. apply Hidle'.
      apply orb_false_elim in Hstop as [_ Hstop]. apply Nat.leb_gt in Hstop. exact Hstop.
Qed.

(** X12. When the interaction loop of [solve], run from the start for
    [budget] iterations, returns, the steps taken are at most 400 per
    iteration, the executed actions are no more than the steps taken and at
    most 200 per iteration, every executed action is a recorded trace
    command, every aggregated text is non-empty, and the idle counter is at
    most the idle limit of 150. *)
Theorem interaction_loop_bounds budget w st w' :
  interaction_loop budget initial_loop_state w = (Returned st, w') ->
  steps_taken st <= 400 * budget /\
  length (actions_executed st) <= steps_taken st /\
  length (actions_executed st) <= 200 * budget /\
  Forall recorded_action (actions_executed st) /\
  Forall (fun t => nonempty t = true) (aggregated_response_texts st) /\
  idle_cycles st <= 150.
Proof.
  intros H. apply interaction_loop_grows in H
    as (na & nt & Ha & Ht & Hs1 & Hs2 & Hl1 & Hl2 & Hrec & Hne & Hidle).
  simpl in *. rewrite Ha, Ht.
  repeat split; auto; try lia. apply Hidle. unfold idle_limit. lia.
Qed.

(** X13. A result of [solve] is either the zero-reward result of the
    [except] block, or a result whose messages start with the system message
    and the task instruction, followed by at most one non-empty assistant
    message, and whose [info] holds the task index, a step count of at most
    400 per allowed iteration, the executed actions (no more than the steps,
    each a recorded trace command) and the reward information. *)
Theorem solve_result_shape self task_index max_num_steps w r w' :
  solve self task_index max_num_steps w = (Returned r, w') ->
  (exists e, r = solve_except self e) \/
  (exists obs tail steps actions reward_info,
      messages r = ("system", wiki self) :: ("user", obs) :: tail /\
      (tail = [] \/ exists text, tail = [("assistant", text)] /\ nonempty text = true) /\
      info r = [("task_index", py_int_opt task_index);
                ("steps", VInt (Z.of_nat steps));
                ("executed_actions", VList actions);
                ("reward_info", reward_info)] /\
      steps <= 400 * Z.to_nat max_num_steps /\
      length actions <= steps /\
      Forall recorded_action actions).
Proof.
  unfold solve, try_except. intros H.
  destruct (solve_try self task_index max_num_steps w) as [[r0|e] w0] eqn:Htry.
  2:{ left. exists e. unfold ret in H. now injection H as <- _. }
  right. injection H as <- _.
  unfold solve_try in Htry.
  apply bindM_returned in Htry as (obs & w1 & _ & Htry).
  apply bindM_returned in Htry as (st & w2 & Hloop & Htry).
  apply interaction_loop_grows in Hloop
    as (na & nt & Ha & _ & _ & Hsteps & Hacts & _ & Hrec & _ & _).
  cbn [actions_executed steps_taken initial_loop_state app] in Ha, Hsteps, Hacts.
  rewrite Nat.sub_0_r in Hacts. rewrite <- Ha in Hacts, Hrec.
  unfold solve_result in Htry.
  apply bindM_returned in Htry as (agent_final_data & w3 & _ & Htry).
  apply bindM_returned in Htry as (gt_data_sim & w4 & _ & Htry).
  apply bindM_returned in Htry as (reward_res & w5 & _ & Htry).
  injection Htry as <- _. cbn [messages info].
  exists obs.
  exists (if nonempty (strip (String.concat newline (aggregated_response_texts st)))
          then [("assistant", strip (String.concat newline (aggregated_response_texts st)))]
          else []).
  exists (steps_taken st), (actions_executed st).
  eexists. split; [reflexivity|]. split; [|repeat split; auto].
  destruct (nonempty (strip (String.concat newline (aggregated_response_texts st)))) eqn:E;
    [right; eauto|now left].
Qed.

(** X14. When every ground-truth action is a terminal action or names no
    tool of the environment, [_simulate_gt_data] returns the dataset exactly
    as [env.data_load_func()] gave it. *)
Theorem simulate_gt_data_no_effect w d0 w0 :
  env_data_load_func w = (Returned d0, w0) ->
  Forall (fun a => In (action_name a) (env_terminate_tools w0) \/
                   env_tools_map w0 (action_name a) = None)
         (env_task_actions w0) ->
  _simulate_gt_data w = (Returned d0, w0).
Proof.
  intros Hload Hall. unfold _simulate_gt_data, bindM. rewrite Hload. f_equal. f_equal.
  induction Hall as [|a actions Ha _ IH]; simpl; [reflexivity|].
  rewrite <- IH at 2. f_equal. unfold replay_action.
  destruct Ha as [Ha|Ha].
  - now rewrite terminal_action.
  - rewrite Ha. now destruct (existsb _ _).
Qed.

End LoopProperties.

(** ** The further properties on the example worlds *)

Lemma one_way_trace :
  forall w evt,
    fst (@command_trace_get_nowait toy_world one_way_externals w) = Returned (Some evt) ->
    @is_agent_to_workflow toy_world one_way_externals evt = true.
Proof.
  intros w evt H. simpl in H. destruct (trace_queue w); simpl in H; [discriminate|].
  now injection H as <-.
Qed.

Lemma one_way_outputs :
  forall w out,
    fst (@command_output_get_nowait toy_world one_way_externals w) = Returned (Some out) ->
    agent_texts_of out = [].
Proof.
  intros w out H. simpl in H. destruct (output_queue w); simpl in H; [discriminate|].
  now injection H as <-.
Qed.

Lemma drain_command_trace_bounds_witness :
  3 <= 200 /\
  exists new_texts new_actions,
    ["Cancellation result: done"; "thinking"] = [] ++ new_texts /\
    [VDict [("name", VStr "cancel_reservation");
            ("kwargs", VDict [("reservation_id", VStr "4WQ150")]);
            ("response_text", VStr "Cancellation result: done");
            ("success", VBool true)]] = [] ++ new_actions /\
    length new_texts <= 3 /\ length new_actions <= 3 /\
    Forall (fun t => nonempty t = true) new_texts /\
    Forall recorded_action new_actions.
Proof.
  apply (@drain_command_trace_bounds toy_world (toy_externals true []) 200 [] [] busy_world
           3 _ _
           (snd (@_drain_command_trace toy_world (toy_externals true []) 200 [] [] busy_world))).
  reflexivity.
Defined.

Lemma drain_command_trace_one_way_witness :
  3 <= 200 /\ ["kept"] = ["kept"] /\ @nil value = [] /\
  snd (@_drain_command_trace toy_world one_way_externals 200 ["kept"] [] busy_world)
  = @after_trace_polls toy_world one_way_externals (polls_made 200 3) busy_world.
Proof.
  apply (@drain_command_trace_one_way toy_world one_way_externals 200 ["kept"] [] busy_world
           3 ["kept"] [] _ one_way_trace).
  reflexivity.
Defined.

Lemma drain_agent_outputs_bounds_witness :
  2 <= 200 /\
  (true = true -> 1 <= 2) /\
  exists new_texts,
    ["Which reservation?"; "###STOP###"] = [] ++ new_texts /\
    length new_texts <= 2 * 2 /\
    Forall (fun t => nonempty t = true) new_texts.
Proof.
  apply (@drain_agent_outputs_bounds toy_world (toy_externals true []) 200 [] busy_world
           2 true _
           (snd (@_drain_agent_outputs_and_respond toy_world (toy_externals true [])
                   200 [] busy_world))).
  reflexivity.
Defined.

Lemma drain_agent_outputs_blank_witness :
  2 <= 200 /\ false = false /\ ["kept"] = ["kept"] /\
  snd (@_drain_agent_outputs_and_respond toy_world one_way_externals 200 ["kept"] busy_world)
  = @after_output_polls toy_world one_way_externals (polls_made 200 2) busy_world.
Proof.
  apply (@drain_agent_outputs_blank toy_world one_way_externals 200 ["kept"] busy_world
           2 false ["kept"] _ one_way_outputs).
  reflexivity.
Defined.

Lemma interaction_loop_bounds_witness :
  5 <= 400 * 3 /\
  1 <= 5 /\
  1 <= 200 * 3 /\
  Forall recorded_action
    [VDict [("name", VStr "cancel_reservation");
            ("kwargs", VDict [("reservation_id", VStr "4WQ150")]);
            ("response_text", VStr "Cancellation result: done");
            ("success", VBool true)]] /\
  Forall (fun t => nonempty t = true)
    ["Cancellation result: done"; "thinking"; "Which reservation?"; "###STOP###"] /\
  0 <= 150.
Proof.
  apply (@interaction_loop_bounds toy_world (toy_externals true []) 3 busy_world
           {| actions_executed :=
                [VDict [("name", VStr "cancel_reservation");
                        ("kwargs", VDict [("reservation_id", VStr "4WQ150")]);
                        ("response_text", VStr "Cancellation result: done");
                        ("success", VBool true)]];
              aggregated_response_texts :=
                ["Cancellation result: done"; "thinking"; "Which reservation?"; "###STOP###"];
              steps_taken := 5;
              done := true;
              idle_cycles := 0 |}
           (snd (@interaction_loop toy_world (toy_externals true []) 3
                   initial_loop_state busy_world))).
  reflexivity.
Defined.

Lemma solve_result_shape_witness :
  (exists e,
      {| reward := 1%float;
         messages := [("system", "airline agent policy");
                      ("user", "Cancel reservation 4WQ150.")];
         info := [("task_index", VInt 0); ("steps", VInt 0);
                  ("executed_actions", VList []); ("reward_info", VDict [])] |}
      = solve_except toy_adapter e) \/
  (exists obs tail steps actions reward_info,
      [("system", "airline agent policy"); ("user", "Cancel reservation 4WQ150.")]
      = ("system", "airline agent policy") :: ("user", obs) :: tail /\
      (tail = [] \/ exists text, tail = [("assistant", text)] /\ nonempty text = true) /\
      [("task_index", VInt 0); ("steps", VInt 0);
       ("executed_actions", VList []); ("reward_info", VDict [])]
      = [("task_index", VInt 0);
         ("steps", VInt (Z.of_nat steps));
         ("executed_actions", VList actions);
         ("reward_info", reward_info)] /\
      steps <= 400 * Z.to_nat 200 /\
      length actions <= steps /\
      Forall recorded_action actions).
Proof.
  apply (@solve_result_shape toy_world (toy_externals false []) toy_adapter (Some 0%Z) 200
           quiet_world
           {| reward := 1%float;
              messages := [("system", "airline agent policy");
                           ("user", "Cancel reservation 4WQ150.")];
              info := [("task_index", VInt 0); ("steps", VInt 0);
                       ("executed_actions", VList []); ("reward_info", VDict [])] |}
           (snd (@solve toy_world (toy_externals false []) toy_adapter (Some 0%Z) 200
                   quiet_world))).
  vm_compute. reflexivity.
Defined.

Lemma simulate_gt_data_no_effect_witness :
  @_simulate_gt_data toy_world
     (toy_externals true [TauAction "transfer_to_human_agents" [];
                          TauAction "think" [("thought", VStr "nothing to do")]])
     quiet_world
  = (Returned example_data, quiet_world).
Proof.
  apply (@simulate_gt_data_no_effect toy_world
           (toy_externals true [TauAction "transfer_to_human_agents" [];
                                TauAction "think" [("thought", VStr "nothing to do")]])
           quiet_world example_data quiet_world eq_refl).
  constructor; [left; simpl; auto|].
  constructor; [right; reflexivity|constructor].
Defined.
